(** * A shallow embedding of pydanticV2-argparse

    The development models the Python package [pydanticV2_argparse]:
    - [utils.py]: type inspection ([_iter_candidate_annotations],
      [_single_annotation_matches], [is_field_a]), argument naming
      ([name]), the validator wrapper ([as_validator]) and the model
      subclassing helper ([model_with_validators]);
    - [parser.py]: the [ArgumentParser] class ([_add_model], [_add_field],
      [_add_argument_base], [add_argument], [_commands], [error],
      [parse_typed_args]).

    Python classes and [typing] annotations are represented by a small
    descriptor language; the class objects of the user models live in a
    store indexed by class id, so that the in-place updates [_add_model]
    performs on a model's field records are visible to every holder of the
    class. *)

From Stdlib Require Import String List Bool ZArith Ascii Lia Permutation.
Set Warnings "-register-all".
Import ListNotations.
Open Scope string_scope.
Open Scope list_scope.

(** ** Python values *)

(** Members of an [enum.Enum] class: its name and its [(name, value)] pairs
    in declaration order. *)
Record enum_decl := mkEnum {
  e_name : string;
  e_members : list (string * Z)
}.

(** Values allowed inside [typing.Literal[...]]. *)
Inductive lit :=
| LStr (s : string)
| LInt (z : Z)
| LBool (b : bool).

(** The Python classes an annotation can name (or have as its [get_origin]).
    [CModel i] is the [pydantic.BaseModel] subclass stored under id [i]. *)
Inductive pyclass :=
| CBool | CInt | CStr | CBytes
| CList | CTuple | CSet | CFrozenSet | CDict
| CEnum (e : enum_decl)
| CModel (id : nat)
| CObject.

(** The two spellings of a union: [typing.Union[...]] / [Optional[...]]
    (whose [get_origin] is [typing.Union]) and the PEP 604 form [X | Y]
    (whose [get_origin] is [types.UnionType], a distinct object before
    Python 3.14). *)
Inductive union_syntax := UTyping | UPipe.

(** Annotations: [TNone] is [NoneType], [TClass c] a bare class,
    [TGeneric c args] a parameterised generic whose [get_origin] is [c]
    ([List[int]], [Dict[str, int]], ...), [TLiteral] is [Literal[...]] and
    [TUnion] is [Union[...]] / [X | Y] (with [Optional[X] = Union[X, None]]). *)
Inductive ty :=
| TNone
| TClass (c : pyclass)
| TGeneric (c : pyclass) (args : list ty)
| TLiteral (ls : list lit)
| TUnion (syn : union_syntax) (ts : list ty).

(** Runtime values handled by the parser: [None], booleans, integers,
    strings (also standing for [bytes]), enum members, lists (the
    [nargs='+'] result), dictionaries (mapping values and converted
    sub-namespaces), model instances (class id and field values) and type
    objects (a non-literal member of a [Union] with a [Literal]). *)
Inductive pyval :=
| VNone
| VBool (b : bool)
| VInt (z : Z)
| VStr (s : string)
| VMember (e : string) (m : string)
| VList (vs : list pyval)
| VDict (kvs : list (string * pyval))
| VObj (cls : nat) (fields : list (string * pyval))
| VTypeObj (t : ty).

Definition lit_val (l : lit) : pyval :=
  match l with
  | LStr s => VStr s
  | LInt z => VInt z
  | LBool b => VBool b
  end.

(** ** Classes and annotations *)

(** The expected types [_add_field] passes to [is_field_a]. *)
Inductive expected :=
| XBaseModel | XBool | XContainer | XMapping | XEnum | XStr | XBytes
| XLiteral.

(** [issubclass(c, x)] for the classes of [pyclass]: the standard library's
    ABC registrations ([str], [bytes], [list], [tuple], [set], [frozenset]
    and [dict] are [collections.abc.Container]s; only [dict] is a
    [collections.abc.Mapping]; [bool] is neither). *)
Definition issubclass (c : pyclass) (x : expected) : bool :=
  match x, c with
  | XBaseModel, CModel _ => true
  | XBool, CBool => true
  | XContainer, (CStr | CBytes | CList | CTuple | CSet | CFrozenSet | CDict) => true
  | XMapping, CDict => true
  | XEnum, CEnum _ => true
  | XStr, CStr => true
  | XBytes, CBytes => true
  | _, _ => false
  end.

(** ** Type inspection ([utils.py]) *)

(** [_iter_candidate_annotations(tp)]: the non-[None] members of a possibly
    nested union, left to right; a non-union annotation (including a bare
    [NoneType]) is yielded as it is.  [None] stands for an absent
    annotation ([tp is None]), which yields nothing. *)
Fixpoint iter_candidates_ty (tp : ty) : list ty :=
  match tp with
  | TUnion _ ts =>
      (fix go (ts : list ty) : list ty :=
         match ts with
         | [] => []
         | TNone :: rest => go rest
         | t :: rest => iter_candidates_ty t ++ go rest
         end) ts
  | t => [t]
  end.

Definition _iter_candidate_annotations (tp : option ty) : list ty :=
  match tp with
  | None => []
  | Some t => iter_candidates_ty t
  end.

(** [get_origin(annotation) or annotation], as a class when it is one. *)
Definition base_class (t : ty) : option pyclass :=
  match t with
  | TClass c | TGeneric c _ => Some c
  | _ => None
  end.

(** [_single_annotation_matches(annotation, expected)]: a [Literal[...]]
    annotation matches exactly [Literal]; otherwise the base (origin or the
    annotation) must be, or be a subclass of, the expected class. *)
Definition _single_annotation_matches (ann : ty) (x : expected) : bool :=
  match ann with
  | TLiteral _ => match x with XLiteral => true | _ => false end
  | _ =>
      match x, base_class ann with
      | XLiteral, _ => false
      | _, Some c => issubclass c x
      | _, None => false
      end
  end.

(** [is_field_a(field, types)] on the field's annotation. *)
Definition is_field_a (annotation : option ty) (types : list expected) : bool :=
  match annotation with
  | None => false
  | Some _ =>
      let candidates := _iter_candidate_annotations annotation in
      match candidates with
      | [] => false
      | _ => existsb (fun ann => existsb (_single_annotation_matches ann) types)
               candidates
      end
  end.

(** The classification chosen by the [if]/[elif] chain of [_add_field]. *)
Inductive kind :=
| KCommand | KLiteral | KBoolean | KContainer | KMapping | KEnum | KStandard.

Definition classify (annotation : option ty) : kind :=
  let is_Command := is_field_a annotation [XBaseModel] in
  let is_Boolean := is_field_a annotation [XBool] in
  let is_Container := is_field_a annotation [XContainer]
                      && negb (is_field_a annotation [XMapping; XEnum; XStr; XBytes]) in
  let is_Mapping := is_field_a annotation [XMapping] in
  let is_Literal := is_field_a annotation [XLiteral] in
  let is_Enum := is_field_a annotation [XEnum] in
  if is_Command then KCommand
  else if is_Literal then KLiteral
  else if is_Boolean then KBoolean
  else if is_Container then KContainer
  else if is_Mapping then KMapping
  else if is_Enum then KEnum
  else KStandard.

(** ** Fields ([pydantic.fields.FieldInfo]) *)

(** A field record.  [f_default = None] stands for [PydanticUndefined];
    [f_default_factory] holds the value the factory returns when called. *)
Record field := mkField {
  f_alias : option string;
  f_annotation : option ty;
  f_default : option pyval;
  f_default_factory : option pyval;
  f_description : option string
}.

(** [FieldInfo.is_required()]: no default and no default factory. *)
Definition is_required (f : field) : bool :=
  match f_default f, f_default_factory f with
  | None, None => true
  | _, _ => false
  end.

(** [FieldInfo.get_default()] (factory not called): the default when there is
    no factory, [None] when there is one; the Rocq [None] is
    [PydanticUndefined]. *)
Definition get_default (f : field) : option pyval :=
  match f_default_factory f with
  | None => f_default f
  | Some _ => Some VNone
  end.

(** Python truthiness ([bool(v)]). *)
Definition py_truthy (v : pyval) : bool :=
  match v with
  | VNone => false
  | VBool b => b
  | VInt z => negb (Z.eqb z 0)
  | VStr s => negb (String.eqb s "")
  | VList vs => match vs with [] => false | _ => true end
  | VDict kvs => match kvs with [] => false | _ => true end
  | _ => true
  end.

(** [x is not None] and [bool(x)] on a [get_default()] result
    ([PydanticUndefined] is an ordinary, truthy object). *)
Definition is_not_none (d : option pyval) : bool :=
  match d with Some VNone => false | _ => true end.

Definition default_truthy (d : option pyval) : bool :=
  match d with Some v => py_truthy v | None => true end.

Definition is_TNone (t : ty) : bool :=
  match t with TNone => true | _ => false end.

(** [allows_none(field)] of [parser.py]: a [typing.Union] with a [NoneType]
    member, or [NoneType] itself.  A PEP 604 union has origin
    [types.UnionType], not [typing.Union], so it falls to the last test. *)
Definition allows_none (f : field) : bool :=
  match f_annotation f with
  | None => false
  | Some (TUnion UTyping ts) => existsb is_TNone ts
  | Some t => is_TNone t
  end.

(** ** Strings *)

Definition map_string (g : ascii -> ascii) : string -> string :=
  fix go (s : string) : string :=
    match s with
    | EmptyString => EmptyString
    | String c rest => String (g c) (go rest)
    end.

(** [str.upper()] on ASCII letters. *)
Definition ascii_upper (c : ascii) : ascii :=
  let n := nat_of_ascii c in
  if (97 <=? n)%nat && (n <=? 122)%nat then ascii_of_nat (n - 32)%nat else c.

Definition upper : string -> string := map_string ascii_upper.

(** [s.replace('_', '-')]. *)
Definition underscore_to_dash (c : ascii) : ascii :=
  if Ascii.eqb c "_"%char then "-"%char else c.

Fixpoint join (sep : string) (xs : list string) : string :=
  match xs with
  | [] => ""
  | [x] => x
  | x :: rest => x ++ sep ++ join sep rest
  end.

(** Decimal rendering of a natural number: [str(n)]. *)
Fixpoint dec_digits (fuel : nat) (n : N) (acc : string) : string :=
  match fuel with
  | O => acc
  | S k =>
      let acc' := String (ascii_of_N (48 + N.modulo n 10)%N) acc in
      if N.ltb n 10%N then acc' else dec_digits k (N.div n 10%N) acc'
  end.

Definition str_Z (z : Z) : string :=
  match z with
  | Z0 => "0"
  | Zpos p => dec_digits (Pos.size_nat p) (Npos p) ""
  | Zneg p => "-" ++ dec_digits (Pos.size_nat p) (Npos p) ""
  end.

(** [utils.name(field, invert)]: ["--"] or ["--no-"] followed by the alias
    with underscores turned into dashes. *)
Definition name (f : field) (invert : bool) : string :=
  let prefix := if invert then "--no-" else "--" in
  let alias := match f_alias f with Some a => a | None => "" end in
  prefix ++ map_string underscore_to_dash alias.

(** ** Validators ([utils.as_validator]) *)

(** A caster maps the raw string to a value; [None] means it raised an
    [Exception]. *)
Definition caster := string -> option pyval.

Record validator := mkValidator {
  v_name : string;
  v_field : string;
  v_caster : caster
}.

(** The body of the [mode="before"] validator built by [as_validator]. *)
Definition run_validator (c : caster) (value : pyval) : pyval :=
  match value with
  | VStr s =>
      if String.eqb s "" then VNone
      else match c s with
           | Some v => v
           | None => value
           end
  | _ => value
  end.

Definition as_validator (field_name : string) (c : caster) : validator :=
  mkValidator ("__pydanticV2_argparse_" ++ field_name) field_name c.

(** [update_validators]: [validators[validator.__name__] = validator]. *)
Fixpoint dict_set {A} (k : string) (x : A) (d : list (string * A)) : list (string * A) :=
  match d with
  | [] => [(k, x)]
  | (k', y) :: rest =>
      if String.eqb k k' then (k, x) :: rest else (k', y) :: dict_set k x rest
  end.

Fixpoint dict_get {A} (k : string) (d : list (string * A)) : option A :=
  match d with
  | [] => None
  | (k', y) :: rest => if String.eqb k k' then Some y else dict_get k rest
  end.

Definition update_validators (vs : list (string * validator))
  (v : option validator) : list (string * validator) :=
  match v with
  | Some v => dict_set (v_name v) v vs
  | None => vs
  end.

(** ** Registration errors and a small error monad *)

(** Exceptions raised while a schema is registered: [TypeError] ([len()] of
    a non-enum class), [AttributeError] (a non-model class handed to a
    sub-parser), argparse's [ArgumentError] (conflicting option strings or
    subparsers) and [RecursionError] (the recursion depth, modelled by fuel). *)
Inductive err :=
| TypeError
| AttributeError
| ArgError (msg : string)
| RecursionLimit.

Inductive res (A : Type) :=
| Ok (a : A)
| Err (e : err).
Arguments Ok {A} a.
Arguments Err {A} e.

Definition bind {A B} (m : res A) (k : A -> res B) : res B :=
  match m with
  | Ok a => k a
  | Err e => Err e
  end.

Notation "x <- m ;; k" := (bind m (fun x => k)) (at level 61, m at next level, right associativity).

(** ** argparse actions and the parser graph *)

Inductive action_kind :=
| StoreAction | StoreConstAction | StoreTrueAction | StoreFalseAction
| BooleanOptionalAction | HelpAction | VersionAction.

Inductive nargs := NargsNone | OneOrMore.

(** A registered [argparse.Action]. *)
Record action := mkAction {
  act_options : list string;
  act_kind : action_kind;
  act_nargs : nargs;
  act_const : option pyval;
  act_dest : string;
  act_metavar : option string;
  act_required : bool
}.

(** The keyword arguments [_add_argument_base] passes to [add_argument]
    (the help text, display only, is left out). *)
Record arg_request := mkRequest {
  r_name : string;
  r_kind : action_kind;
  r_nargs : nargs;
  r_const : option pyval;
  r_dest : string;
  r_metavar : option string;
  r_required : bool
}.

(** An [ArgumentParser] instance: program name, the [exit_on_error],
    [add_help] and [version] settings, the titles of [_action_groups] in
    order, the actions of the required, optional and help groups, the
    commands group ([_subcommands]: [None] until created, then the sub-parsers
    by name) and the (validator-augmented) model class [self.model]. *)
Inductive parser := mkParser {
  p_prog : string;
  p_exit_on_error : bool;
  p_add_help : bool;
  p_version : option string;
  p_groups : list string;
  p_required : list action;
  p_optional : list action;
  p_help : list action;
  p_subcommands : option (list (string * parser));
  p_model : nat
}.

Definition set_groups (p : parser) (gs : list string) : parser :=
  mkParser (p_prog p) (p_exit_on_error p) (p_add_help p) (p_version p) gs
    (p_required p) (p_optional p) (p_help p) (p_subcommands p) (p_model p).
Definition set_required (p : parser) (xs : list action) : parser :=
  mkParser (p_prog p) (p_exit_on_error p) (p_add_help p) (p_version p) (p_groups p)
    xs (p_optional p) (p_help p) (p_subcommands p) (p_model p).
Definition set_optional (p : parser) (xs : list action) : parser :=
  mkParser (p_prog p) (p_exit_on_error p) (p_add_help p) (p_version p) (p_groups p)
    (p_required p) xs (p_help p) (p_subcommands p) (p_model p).
Definition set_help (p : parser) (xs : list action) : parser :=
  mkParser (p_prog p) (p_exit_on_error p) (p_add_help p) (p_version p) (p_groups p)
    (p_required p) (p_optional p) xs (p_subcommands p) (p_model p).
Definition set_subcommands (p : parser) (s : option (list (string * parser))) : parser :=
  mkParser (p_prog p) (p_exit_on_error p) (p_add_help p) (p_version p) (p_groups p)
    (p_required p) (p_optional p) (p_help p) s (p_model p).
Definition set_model (p : parser) (m : nat) : parser :=
  mkParser (p_prog p) (p_exit_on_error p) (p_add_help p) (p_version p) (p_groups p)
    (p_required p) (p_optional p) (p_help p) (p_subcommands p) m.

Definition all_actions (p : parser) : list action :=
  p_required p ++ p_optional p ++ p_help p.

Definition registered_options (p : parser) : list string :=
  flat_map act_options (all_actions p).

(** Modelled from the spec: the option strings of a new action; the
    package's [BooleanOptionalAction] (not among the sources) adds the
    ["--no-"] form of each ["--"] option. *)
Definition option_strings (r : arg_request) : list string :=
  match r_kind r with
  | BooleanOptionalAction =>
      let n := r_name r in
      if String.prefix "--" n
      then [n; ("--no-" ++ substring 2 (String.length n - 2) n)%string]
      else [n]
  | _ => [r_name r]
  end.

(** [ArgumentParser.add_argument]: the [required] keyword is popped, selects
    the group, and never reaches argparse (whose default for an option is
    [required=False]); argparse refuses an option string already in use. *)
Definition add_argument (p : parser) (r : arg_request) : res parser :=
  let opts := option_strings r in
  let a := mkAction opts (r_kind r) (r_nargs r) (r_const r) (r_dest r) (r_metavar r) false in
  match find (fun o => existsb (String.eqb o) (registered_options p)) opts with
  | Some o => Err (ArgError ("conflicting option string: " ++ o))
  | None =>
      if r_required r then Ok (set_required p (p_required p ++ [a]))
      else Ok (set_optional p (p_optional p ++ [a]))
  end.

(** [_add_help_flag] and [_add_version_flag]. *)
Definition help_action : action :=
  mkAction ["-h"; "--help"] HelpAction NargsNone None "help" None false.
Definition version_action : action :=
  mkAction ["-v"; "--version"] VersionAction NargsNone None "version" None false.

(** The state right after [super().__init__] and the three
    [add_argument_group] calls, with the help and version flags. *)
Definition init_parser (prog : string) (exit_on_error add_help : bool)
  (version : option string) (model : nat) : parser :=
  let p := mkParser prog exit_on_error add_help version
             ["positional arguments"; "options"; "required arguments";
              "optional arguments"; "help"] [] [] [] None model in
  let p := if add_help then set_help p (p_help p ++ [help_action]) else p in
  match version with
  | Some v => if String.eqb v "" then p else set_help p (p_help p ++ [version_action])
  | None => p
  end.

(** [add_subparsers]: argparse refuses a second subparsers action; the new
    titled group is appended to [_action_groups]. *)
Definition add_subparsers (p : parser) : res parser :=
  match p_subcommands p with
  | Some _ => Err (ArgError "cannot have multiple subparser arguments")
  | None => Ok (set_groups (set_subcommands p (Some [])) (p_groups p ++ ["commands"]))
  end.

(** [self._action_groups.insert(0, self._action_groups.pop())]. *)
Definition move_last_to_front (gs : list string) : list string :=
  match rev gs with
  | [] => []
  | g :: r => g :: rev r
  end.

(** [_commands]: creates the commands group on the first call only. *)
Definition _commands (p : parser) : res parser :=
  match p_subcommands p with
  | Some _ => Ok p
  | None =>
      p' <- add_subparsers p ;;
      Ok (set_groups p' (move_last_to_front (p_groups p')))
  end.

(** [add_parser(name, ...)] on the commands group: a name already in use is
    refused before the sub-parser is built. *)
Definition add_parser_check (p : parser) (nm : string) : res unit :=
  match p_subcommands p with
  | None => Err AttributeError
  | Some subs =>
      if existsb (fun kv => String.eqb (fst kv) nm) subs
      then Err (ArgError ("conflicting subparser: " ++ nm)) else Ok tt
  end.

Definition add_parser_register (p : parser) (nm : string) (sub : parser) : parser :=
  match p_subcommands p with
  | None => p
  | Some subs => set_subcommands p (Some (subs ++ [(nm, sub)]))
  end.

(** ** Model classes *)

(** A [pydantic.BaseModel] subclass: its [__name__], its base (for classes
    made by [create_model]), its [model_fields] (the shared [FieldInfo]
    records, by field name) and its [mode="before"] field validators. *)
Record cls := mkCls {
  c_name : string;
  c_base : option nat;
  c_fields : list (string * field);
  c_validators : list (string * validator)
}.

(** All class objects, indexed by class id. *)
Definition store := list cls.

Fixpoint list_set {A} (xs : list A) (i : nat) (x : A) : list A :=
  match xs, i with
  | [], _ => []
  | _ :: rest, O => x :: rest
  | y :: rest, S k => y :: list_set rest k x
  end.

(** [field.alias = field.alias or name], written into the class object. *)
Definition set_alias_default (fname : string) (f : field) : field :=
  let a := match f_alias f with
           | Some a => if String.eqb a "" then fname else a
           | None => fname
           end in
  mkField (Some a) (f_annotation f) (f_default f) (f_default_factory f) (f_description f).

Definition set_field_alias (st : store) (id : nat) (fname : string) : store :=
  match nth_error st id with
  | None => st
  | Some c =>
      let fs := map (fun kv => if String.eqb (fst kv) fname
                               then (fst kv, set_alias_default fname (snd kv)) else kv)
                    (c_fields c) in
      list_set st id (mkCls (c_name c) (c_base c) fs (c_validators c))
  end.

Definition lookup_field (st : store) (id : nat) (fname : string) : option field :=
  match nth_error st id with
  | None => None
  | Some c => dict_get fname (c_fields c)
  end.

(** [model_with_validators]: [create_model(model.__name__, __base__=model,
    __validators__=validators)] adds a new class (same name, the model as
    base, copies of its fields, its validators followed by the new ones);
    the result is the new class id. *)
Definition model_with_validators (st : store) (model : nat)
  (vs : list (string * validator)) : option (store * nat) :=
  match nth_error st model with
  | None => None
  | Some c =>
      Some (st ++ [mkCls (c_name c) (Some model) (c_fields c) (c_validators c ++ vs)],
            length st)
  end.

(** ** Literal choices and enum members *)

Inductive choice :=
| ChLit (l : lit)
| ChTy (t : ty).

Definition str_lit (l : lit) : string :=
  match l with
  | LStr s => s
  | LInt z => str_Z z
  | LBool b => if b then "True" else "False"
  end.

Definition class_name (c : pyclass) : string :=
  match c with
  | CBool => "bool" | CInt => "int" | CStr => "str" | CBytes => "bytes"
  | CList => "list" | CTuple => "tuple" | CSet => "set"
  | CFrozenSet => "frozenset" | CDict => "dict"
  | CEnum e => e_name e
  | CModel _ => "BaseModel"
  | CObject => "object"
  end.

(** [str()] of a non-literal union member (the rendering of model classes
    and generic aliases is abbreviated). *)
Definition str_ty (t : ty) : string :=
  match t with
  | TNone => "<class 'NoneType'>"
  | TClass (CEnum e) => "<enum '" ++ e_name e ++ "'>"
  | TClass c => "<class '" ++ class_name c ++ "'>"
  | TGeneric c _ => "typing." ++ class_name c
  | TLiteral _ => "typing.Literal"
  | TUnion _ _ => "typing.Union"
  end.

Definition str_choice (c : choice) : string :=
  match c with ChLit l => str_lit l | ChTy t => str_ty t end.

Definition choice_val (c : choice) : pyval :=
  match c with ChLit l => lit_val l | ChTy t => VTypeObj t end.

(** One member of [get_args(field.annotation)]: [NoneType] is dropped, a
    [Literal[...]] contributes its values, anything else is kept. *)
Definition expand_arg (t : ty) : list choice :=
  match t with
  | TNone => []
  | TLiteral ls => map ChLit ls
  | t => [ChTy t]
  end.

(** The [choices] list of the Literal branch of [_add_field]; the arguments
    of a bare [Literal[...]] are its values. *)
Definition literal_choices (ann : option ty) : list choice :=
  match ann with
  | Some (TLiteral ls) => map ChLit ls
  | Some (TUnion _ ts) | Some (TGeneric _ ts) => flat_map expand_arg ts
  | _ => []
  end.

(** [mapping = {str(choice): choice for choice in choices}] (a later equal
    key overwrites an earlier one). *)
Definition choice_mapping (cs : list choice) : list (string * pyval) :=
  fold_left (fun d c => dict_set (str_choice c) (choice_val c) d) cs [].

(** The Literal caster [lambda v: mapping[str(v)]] ([str(v)] is [v] on the
    string inputs a caster receives). *)
Definition literal_caster (cs : list choice) : caster :=
  fun v => dict_get v (choice_mapping cs).

(** The Enum caster [lambda v: enum_type[v]]: lookup by member name. *)
Definition enum_caster (e : enum_decl) : caster :=
  fun v => if existsb (fun m => String.eqb (fst m) v) (e_members e)
           then Some (VMember (e_name e) v) else None.

Definition identity_caster : caster := fun v => Some (VStr v).

(** [x or y] on an optional string. *)
Definition str_or (x : option string) (y : string) : string :=
  match x with
  | Some a => if String.eqb a "" then y else a
  | None => y
  end.

(** [_add_argument_base]: the option name ([--alias] or [--no-alias]), the
    destination [alias], the metavar ([metavar or alias.upper()], dropped
    when [no_metavar]) and [required=field.is_required()]. *)
Definition _add_argument_base (p : parser) (f : field) (kind : action_kind)
  (n : nargs) (metavar : option string) (no_metavar is_inverted : bool)
  (const : option pyval) : res parser :=
  let nm := name f is_inverted in
  let alias := str_or (f_alias f) nm in
  let mv := str_or metavar (upper alias) in
  add_argument p (mkRequest nm kind n const alias
                    (if no_metavar then None else Some mv) (is_required f)).

(** ** Registration ([_add_field], [_add_model], [ArgumentParser.__init__]) *)

Section Registration.

(** [ast.literal_eval] on a string: the parsed value, [None] when it raises. *)
Variable literal_eval : caster.

(** [_add_field(field, name)]: classify the field and register its
    argument(s); [build_sub st id prog] constructs the sub-parser of a nested
    model (an [ArgumentParser] with [exit_on_error=False]).  The result is the
    updated store, the updated parser and the validator to install. *)
Definition _add_field
  (build_sub : store -> nat -> string -> res (store * parser))
  (st : store) (p : parser) (f : field) (fname : string)
  : res (store * parser * option validator) :=
  let ann := f_annotation f in
  let default_validator := as_validator fname identity_caster in
  let alias := str_or (f_alias f) "" in
  match classify ann with
  | KCommand =>
      match _iter_candidate_annotations ann with
      | (TClass (CModel id) | TGeneric (CModel id) _) :: _ =>
          p1 <- _commands p ;;
          _ <- add_parser_check p1 alias ;;
          r <- build_sub st id (p_prog p ++ " " ++ alias)%string ;;
          let '(st1, sub) := r in
          Ok (st1, add_parser_register p1 alias sub, None)
      | _ => Err AttributeError
      end
  | KLiteral =>
      let choices := literal_choices ann in
      let is_flag := (length choices =? 1)%nat && negb (is_required f) in
      let is_inverted := is_flag && is_not_none (get_default f) && allows_none f in
      let metavar := ("{" ++ join ", " (map str_choice choices) ++ "}")%string in
      let kind := if is_flag then StoreConstAction else StoreAction in
      let const := if negb is_flag then None
                   else if is_inverted then Some VNone
                   else match choices with
                        | c :: _ => Some (choice_val c)
                        | [] => None
                        end in
      p1 <- (if is_flag && allows_none f
             then _add_argument_base p f kind NargsNone (Some metavar) false true (Some VNone)
             else Ok p) ;;
      p2 <- _add_argument_base p1 f kind NargsNone (Some metavar) false false const ;;
      Ok (st, p2, Some (as_validator fname (literal_caster choices)))
  | KBoolean =>
      let is_inverted := negb (is_required f) && default_truthy (get_default f) in
      let kind := if is_required f then BooleanOptionalAction
                  else if is_inverted then StoreFalseAction
                  else StoreTrueAction in
      p1 <- _add_argument_base p f kind NargsNone None true is_inverted None ;;
      Ok (st, p1, Some default_validator)
  | KContainer =>
      p1 <- _add_argument_base p f StoreAction OneOrMore None false false None ;;
      Ok (st, p1, Some default_validator)
  | KMapping =>
      p1 <- _add_argument_base p f StoreAction NargsNone None false false None ;;
      Ok (st, p1, Some (as_validator fname literal_eval))
  | KEnum =>
      match _iter_candidate_annotations ann with
      | TClass (CEnum e) :: _ =>
          let members := e_members e in
          let is_flag := (length members =? 1)%nat && negb (is_required f) in
          let metavar := ("{" ++ join ", " (map fst members) ++ "}")%string in
          let kind := if is_flag then StoreConstAction else StoreAction in
          let const := match is_flag, members with
                       | true, (m, _) :: _ => Some (VMember (e_name e) m)
                       | _, _ => None
                       end in
          p1 <- (if is_flag && allows_none f
                 then _add_argument_base p f kind NargsNone (Some metavar) false true (Some VNone)
                 else Ok p) ;;
          p2 <- _add_argument_base p1 f kind NargsNone (Some metavar) false false const ;;
          Ok (st, p2, Some (as_validator fname (enum_caster e)))
      | _ => Err TypeError
      end
  | KStandard =>
      p1 <- _add_argument_base p f StoreAction NargsNone None false false None ;;
      Ok (st, p1, Some default_validator)
  end.

(** [_add_model]: for every field of the model, in order, set its alias in
    place, add it, and collect its validator; then derive the subclass. *)
Fixpoint add_fields
  (build_sub : store -> nat -> string -> res (store * parser))
  (model : nat) (fs : list string) (st : store) (p : parser)
  (vs : list (string * validator)) : res (store * parser * list (string * validator)) :=
  match fs with
  | [] => Ok (st, p, vs)
  | fname :: rest =>
      let st1 := set_field_alias st model fname in
      match lookup_field st1 model fname with
      | None => Err AttributeError
      | Some f =>
          r <- _add_field build_sub st1 p f fname ;;
          let '(st2, p2, v) := r in
          add_fields build_sub model rest st2 p2 (update_validators vs v)
      end
  end.

Definition _add_model
  (build_sub : store -> nat -> string -> res (store * parser))
  (st : store) (p : parser) (model : nat) : res (store * parser) :=
  match nth_error st model with
  | None => Err AttributeError
  | Some c =>
      r <- add_fields build_sub model (map fst (c_fields c)) st p [] ;;
      let '(st1, p1, vs) := r in
      match model_with_validators st1 model vs with
      | None => Err AttributeError
      | Some (st2, id) => Ok (st2, set_model p1 id)
      end
  end.

(** [ArgumentParser(model, prog, version=..., add_help=..., exit_on_error=...)];
    sub-parsers are built with [exit_on_error=False], [add_help=True] and no
    version. *)
Fixpoint new_parser (fuel : nat) (st : store) (model : nat) (prog : string)
  (exit_on_error add_help : bool) (version : option string) : res (store * parser) :=
  match fuel with
  | O => Err RecursionLimit
  | S fuel' =>
      let build_sub := fun st id prog => new_parser fuel' st id prog false true None in
      _add_model build_sub st (init_parser prog exit_on_error add_help version model) model
  end.

End Registration.

(** ** Token parsing (the argparse engine, as configured by the package) *)

(** Namespaces as [(dest, value)] lists; [setattr] overwrites. *)
Definition namespace := list (string * pyval).

Definition is_digit (c : ascii) : bool :=
  let n := nat_of_ascii c in (48 <=? n)%nat && (n <=? 57)%nat.

Fixpoint all_digits (s : string) : bool :=
  match s with
  | EmptyString => true
  | String c rest => is_digit c && all_digits rest
  end.

Fixpoint has_char (x : ascii) (s : string) : bool :=
  match s with
  | EmptyString => false
  | String c rest => Ascii.eqb c x || has_char x rest
  end.

(** [s.split(sep, 1)] when [sep] occurs. *)
Fixpoint split_at (x : ascii) (s : string) : option (string * string) :=
  match s with
  | EmptyString => None
  | String c rest =>
      if Ascii.eqb c x then Some (EmptyString, rest)
      else match split_at x rest with
           | Some (a, b) => Some (String c a, b)
           | None => None
           end
  end.

(** argparse's [_negative_number_matcher]: [^-\d+$|^-\d*\.\d+$]. *)
Definition negative_number (s : string) : bool :=
  match s with
  | String c rest =>
      Ascii.eqb c "-" &&
      match split_at "." rest with
      | None => negb (String.eqb rest "") && all_digits rest
      | Some (a, b) => all_digits a && negb (String.eqb b "") && all_digits b
      end
  | EmptyString => false
  end.

Definition find_action (p : parser) (o : string) : option action :=
  find (fun a => existsb (String.eqb o) (act_options a)) (all_actions p).

(** How [_parse_optional] sees one command-line string: a positional
    ([None]), a known option (with an explicit [=value] or a glued short
    value), an unknown option-like string, or an ambiguous abbreviation. *)
Inductive tok :=
| TPos
| TOpt (a : action) (opt : string) (explicit : option string)
| TUnknown
| TAmbiguous (msg : string).

(** [_get_option_tuples]: long options by prefix ([allow_abbrev=True]);
    a single-dash string matches a two-character option followed by a
    glued value, or options it prefixes. *)
Definition option_tuples (p : parser) (s : string) : list (action * string * option string) :=
  let opts := registered_options p in
  let with_action o := match find_action p o with
                       | Some a => [(a, o)]
                       | None => []
                       end in
  if String.prefix "--" s then
    let '(pre, expl) := match split_at "=" s with
                        | Some (a, b) => (a, Some b)
                        | None => (s, None)
                        end in
    flat_map (fun o => if String.prefix pre o
                       then map (fun ao => (fst ao, snd ao, expl)) (with_action o)
                       else []) opts
  else
    let short := substring 0 2 s in
    let rest := substring 2 (String.length s - 2) s in
    flat_map (fun o => if String.eqb o short
                       then map (fun ao => (fst ao, snd ao, Some rest)) (with_action o)
                       else if String.prefix s o
                       then map (fun ao => (fst ao, snd ao, None)) (with_action o)
                       else []) opts.

(** [_parse_optional]. *)
Definition classify_token (p : parser) (s : string) : tok :=
  match s with
  | EmptyString => TPos
  | String c rest =>
      if negb (Ascii.eqb c "-") then TPos else
      match find_action p s with
      | Some a => TOpt a s None
      | None =>
          if String.eqb rest "" then TPos else
          let exact_eq := match split_at "=" s with
                          | Some (o, v) => match find_action p o with
                                           | Some a => Some (TOpt a o (Some v))
                                           | None => None
                                           end
                          | None => None
                          end in
          match exact_eq with
          | Some t => t
          | None =>
              match option_tuples p s with
              | [(a, o, e)] => TOpt a o e
              | _ :: _ :: _ as ts =>
                  TAmbiguous ("ambiguous option: " ++ s ++ " could match "
                              ++ join ", " (map (fun t => snd (fst t)) ts))
              | [] =>
                  if negative_number s then TPos
                  else if has_char " " s then TPos
                  else TUnknown
              end
          end
      end
  end.

Definition is_pos (t : tok) : bool := match t with TPos => true | _ => false end.

(** [usage: ...] line of [print_usage] (the argument list is abbreviated). *)
Definition usage (p : parser) : string := "usage: " ++ p_prog p ++ " [options]".

(** What a parse call ends in: the typed instance, [SystemExit(status)] with
    the lines written to standard error, or an [argparse.ArgumentError]
    raised to the caller (with the lines already written). *)
Inductive outcome :=
| Returned (v : pyval)
| Exited (status : Z) (stderr : list string)
| Raised (msg : string) (stderr : list string).

(** [ArgumentParser.error]: print the usage, then exit with [EXIT_ERROR] or
    raise. *)
Definition EXIT_ERROR : Z := 2.

Definition error (p : parser) (message : string) (stderr : list string) : outcome :=
  let stderr' := stderr ++ [usage p] in
  let line := (p_prog p ++ ": error: " ++ message)%string in
  if p_exit_on_error p then Exited EXIT_ERROR (stderr' ++ [line])
  else Raised line stderr'.

(** The result of [_parse_known_args] for one parser: the namespace and the
    unrecognised strings, an [ArgumentError] on its way up, a direct call of
    [self.error], or an outcome that is already final (help, version, or an
    exit inside a sub-parser). *)
Inductive raw :=
| RNs (ns : namespace) (extras : list string)
| RArgErr (msg : string) (stderr : list string)
| RErrCall (msg : string) (stderr : list string)
| RDone (o : outcome).

(** [parse_known_args]: with [exit_on_error] an [ArgumentError] is reported
    through [self.error]; without it, it propagates. *)
Definition parse_known_args_result (p : parser) (r : raw) : (namespace * list string) + outcome :=
  match r with
  | RNs ns ex => inl (ns, ex)
  | RArgErr m s => if p_exit_on_error p then inr (error p m s) else inr (Raised m s)
  | RErrCall m s => inr (error p m s)
  | RDone o => inr o
  end.

(** Modelled from the spec: the value a zero-argument action stores:
    [const] for [_StoreConstAction], [True]/[False] for
    [store_true]/[store_false], and for the package's [BooleanOptionalAction]
    [False] under its ["--no-"] option and [True] otherwise. *)
Definition action_value (a : action) (opt : string) : pyval :=
  match act_kind a with
  | StoreConstAction => match act_const a with Some v => v | None => VNone end
  | StoreTrueAction => VBool true
  | StoreFalseAction => VBool false
  | BooleanOptionalAction => VBool (negb (String.prefix "--no-" opt))
  | _ => VNone
  end.

Definition action_name (a : action) : string := join "/" (act_options a).

Fixpoint take_pos (ts : list (string * tok)) : list string * list (string * tok) :=
  match ts with
  | (s, TPos) :: rest => let '(vs, rest') := take_pos rest in (s :: vs, rest')
  | _ => ([], ts)
  end.

(** Python's default recursion limit, bounding every recursive descent. *)
Definition recursion_limit : nat := 1000.

(** Modelled from the spec: the package's [actions] module (its
    [BooleanOptionalAction] and [SubParsersAction]) is not among the sources.
    A [BooleanOptionalAction] offers [--x] and [--no-x] and stores [True] or
    [False] ("boolean complementary pairs ([--flag] / [--no-flag])"); the
    sub-command action hands the remaining strings to the sub-parser named by
    the first positional string and stores its namespace under that name
    ("input [add --name x] dispatches into the [add] sub-parser").
    [_parse_known_args]: every string is first classified (an ambiguous
    abbreviation is an error at once), then the strings are consumed left to
    right; options take their values, positionals and unknown options are
    collected as extras, and the required commands group must be used.
    (Not modelled: [--], [fromfile_prefix_chars], chained short flags.) *)
Definition finish (p : parser) (ns : namespace) (extras : list string) (seen : bool) : raw :=
  match p_subcommands p with
  | Some subs =>
      if seen then RNs ns extras
      else RErrCall ("the following arguments are required: {"
                     ++ join "," (map fst subs) ++ "}") []
  | None => RNs ns extras
  end.

(** Modelled from the spec: the consuming loop of [_parse_known_args]; a
    positional string selects a sub-parser of the package's
    [SubParsersAction] (not among the sources), and [sub_parse] runs that
    sub-parser's own [_parse_known_args] on the strings after it. *)
Fixpoint parse_loop (sub_parse : parser -> list string -> raw) (p : parser)
  (fuel : nat) (ts : list (string * tok)) (ns : namespace) (extras : list string) : raw :=
  match fuel with
  | O => finish p ns extras false
  | S fuel' =>
    match ts with
    | [] => finish p ns extras false
    | (s, TPos) :: rest =>
        match p_subcommands p with
        | None => parse_loop sub_parse p fuel' rest ns (extras ++ [s])
        | Some subs =>
            match dict_get s subs with
            | None => RArgErr ("argument {" ++ join "," (map fst subs)
                               ++ "}: invalid choice: '" ++ s ++ "'") []
            | Some sub =>
                match parse_known_args_result sub (sub_parse sub (map fst rest)) with
                | inl (subns, subex) => finish p (dict_set s (VDict subns) ns) (extras ++ subex) true
                | inr (Raised m e) => RArgErr m e
                | inr o => RDone o
                end
            end
        end
    | (s, TUnknown) :: rest => parse_loop sub_parse p fuel' rest ns (extras ++ [s])
    | (_, TAmbiguous m) :: _ => RErrCall m []
    | (_, TOpt a o e) :: rest =>
        let fail (m : string) := RArgErr ("argument " ++ action_name a ++ ": " ++ m) [] in
        match act_kind a, act_nargs a, e with
        | StoreAction, NargsNone, Some v =>
            parse_loop sub_parse p fuel' rest (dict_set (act_dest a) (VStr v) ns) extras
        | StoreAction, NargsNone, None =>
            match rest with
            | (v, TPos) :: rest' =>
                parse_loop sub_parse p fuel' rest' (dict_set (act_dest a) (VStr v) ns) extras
            | _ => fail "expected one argument"
            end
        | StoreAction, OneOrMore, Some v =>
            parse_loop sub_parse p fuel' rest (dict_set (act_dest a) (VList [VStr v]) ns) extras
        | StoreAction, OneOrMore, None =>
            let '(vs, rest') := take_pos rest in
            match vs with
            | [] => fail "expected at least one argument"
            | _ => parse_loop sub_parse p fuel' rest' (dict_set (act_dest a) (VList (map VStr vs)) ns) extras
            end
        | _, _, Some v => fail ("ignored explicit argument '" ++ v ++ "'")%string
        | (HelpAction | VersionAction), _, None => RDone (Exited 0 [])
        | _, _, None => parse_loop sub_parse p fuel' rest (dict_set (act_dest a) (action_value a o) ns) extras
        end
    end
  end.

Definition is_ambiguous (t : string * tok) : bool :=
  match snd t with TAmbiguous _ => true | _ => false end.

Fixpoint parse_known (depth : nat) (p : parser) (argv : list string) : raw :=
  match depth with
  | O => RArgErr "maximum recursion depth exceeded" []
  | S d =>
      let toks := map (fun s => (s, classify_token p s)) argv in
      match find is_ambiguous toks with
      | Some (_, TAmbiguous m) => RErrCall m []
      | _ => parse_loop (parse_known d) p (S (length toks)) toks [] []
      end
  end.

(** [parse_known_args(args)] of the top-level parser. *)
Definition parse_known_args (p : parser) (argv : list string) : (namespace * list string) + outcome :=
  parse_known_args_result p (parse_known recursion_limit p argv).

(** The second half of [parse_args]: leftover strings are reported through
    [self.error]. *)
Definition check_extras (p : parser) (r : (namespace * list string) + outcome) : namespace + outcome :=
  match r with
  | inl (ns, []) => inl ns
  | inl (_, ex) => inr (error p ("unrecognized arguments: " ++ join " " ex) [])
  | inr o => inr o
  end.

(** [parse_args]. *)
Definition parse_args (p : parser) (argv : list string) : namespace + outcome :=
  check_extras p (parse_known_args p argv).

(** ** Schema validation (pydantic, lax mode) and [parse_typed_args] *)

Definition ascii_lower (c : ascii) : ascii :=
  let n := nat_of_ascii c in
  if (65 <=? n)%nat && (n <=? 90)%nat then ascii_of_nat (n + 32)%nat else c.

Definition lower : string -> string := map_string ascii_lower.

Fixpoint z_of_digits (s : string) (acc : Z) : Z :=
  match s with
  | EmptyString => acc
  | String c rest => z_of_digits rest (acc * 10 + Z.of_nat (nat_of_ascii c - 48))%Z
  end.

(** [int] from a string: an optional sign and decimal digits. *)
Definition parse_int (s : string) : option Z :=
  let digits_ok d := negb (String.eqb d "") && all_digits d in
  match s with
  | String "-" d => if digits_ok d then Some (- z_of_digits d 0)%Z else None
  | String "+" d => if digits_ok d then Some (z_of_digits d 0) else None
  | d => if digits_ok d then Some (z_of_digits d 0) else None
  end.

Fixpoint all_some {A} (xs : list (option A)) : option (list A) :=
  match xs with
  | [] => Some []
  | Some x :: rest => option_map (cons x) (all_some rest)
  | None :: _ => None
  end.

Fixpoint first_some {A B} (g : A -> option B) (xs : list A) : option B :=
  match xs with
  | [] => None
  | x :: rest => match g x with Some y => Some y | None => first_some g rest end
  end.

Definition lit_matches (l : lit) (v : pyval) : bool :=
  match l, v with
  | LStr s, VStr s' => String.eqb s s'
  | LInt z, VInt z' => Z.eqb z z'
  | LBool b, VBool b' => Bool.eqb b b'
  | _, _ => false
  end.

(** Whether class [i] is class [target] or derives from it. *)
Fixpoint subclass_of (fuel : nat) (st : store) (i target : nat) : bool :=
  Nat.eqb i target ||
  match fuel with
  | O => false
  | S k => match nth_error st i with
           | Some c => match c_base c with
                       | Some b => subclass_of k st b target
                       | None => false
                       end
                       | None => false
           end
  end.

(** One field of [self.model with keyword arguments]: the input under the field's alias
    goes through the class's [mode="before"] validators for the field, then
    through the type check [val]; a missing input takes the default (or the
    factory's value) without validation, and is an error for a required
    field. *)
Definition field_value (val : ty -> pyval -> option pyval) (c : cls)
  (args : namespace) (fname : string) (f : field) : pyval + string :=
  let key := match f_alias f with Some a => a | None => fname end in
  match dict_get key args with
  | Some raw =>
      let v := fold_left (fun v vd => if String.eqb (v_field (snd vd)) fname
                                      then run_validator (v_caster (snd vd)) v else v)
                         (c_validators c) raw in
      match f_annotation f with
      | None => inl v
      | Some t => match val t v with
                  | Some v' => inl v'
                  | None => inr (fname ++ ": Input is not a valid value")%string
                  end
      end
  | None =>
      match f_default_factory f, f_default f with
      | Some d, _ => inl d
      | None, Some d => inl d
      | None, None => inr (fname ++ ": Field required")%string
      end
  end.

(** [self.model with keyword arguments]: an instance when every field validates, otherwise
    the list of all field errors ([pydantic.ValidationError]). *)
Definition construct (val : ty -> pyval -> option pyval) (st : store) (id : nat)
  (args : namespace) : pyval + list string :=
  match nth_error st id with
  | None => inr ["not a model class"]
  | Some c =>
      let rs := map (fun kv => (fst kv, field_value val c args (fst kv) (snd kv))) (c_fields c) in
      let errs := flat_map (fun r => match snd r with inr e => [e] | inl _ => [] end) rs in
      match errs with
      | [] => inl (VObj id (map (fun r => (fst r, match snd r with inl v => v | inr _ => VNone end)) rs))
      | _ => inr errs
      end
  end.

Definition bool_true_strings : list string := ["1"; "on"; "t"; "true"; "y"; "yes"].
Definition bool_false_strings : list string := ["0"; "off"; "f"; "false"; "n"; "no"].

(** pydantic's lax validation of a value against an annotation (union
    members are tried left to right). *)
Fixpoint validate (fuel : nat) (st : store) (t : ty) (v : pyval) : option pyval :=
  match fuel with
  | O => None
  | S n =>
      let val_class (c : pyclass) (args : list ty) : option pyval :=
        match c, v with
        | CBool, VBool _ => Some v
        | CBool, VInt z =>
            if Z.eqb z 0 then Some (VBool false)
            else if Z.eqb z 1 then Some (VBool true) else None
        | CBool, VStr s =>
            let l := lower s in
            if existsb (String.eqb l) bool_true_strings then Some (VBool true)
            else if existsb (String.eqb l) bool_false_strings then Some (VBool false)
            else None
        | CInt, VInt _ => Some v
        | CInt, VBool b => Some (VInt (if b then 1 else 0)%Z)
        | CInt, VStr s => option_map VInt (parse_int s)
        | (CStr | CBytes), VStr _ => Some v
        | (CList | CTuple | CSet | CFrozenSet), VList vs =>
            match args with
            | [et] => option_map VList (all_some (map (validate n st et) vs))
            | _ => Some v
            end
        | CDict, VDict kvs =>
            match args with
            | [kt; vt] =>
                option_map VDict
                  (all_some (map (fun kv =>
                     match validate n st kt (VStr (fst kv)), validate n st vt (snd kv) with
                     | Some (VStr k), Some x => Some (k, x)
                     | _, _ => None
                     end) kvs))
            | _ => Some v
            end
        | CEnum e, VMember en m =>
            if String.eqb en (e_name e) && existsb (fun mv => String.eqb (fst mv) m) (e_members e)
            then Some v else None
        | CEnum e, VInt z =>
            match find (fun mv => Z.eqb (snd mv) z) (e_members e) with
            | Some (mn, _) => Some (VMember (e_name e) mn)
            | None => None
            end
        | CModel id, VObj i _ => if subclass_of (length st) st i id then Some v else None
        | CModel id, VDict kvs =>
            match construct (validate n st) st id kvs with
            | inl inst => Some inst
            | inr _ => None
            end
        | CObject, _ => Some v
        | _, _ => None
        end in
      match t with
      | TNone => match v with VNone => Some VNone | _ => None end
      | TUnion _ ts => first_some (fun t' => validate n st t' v) ts
      | TLiteral ls => if existsb (fun l => lit_matches l v) ls then Some v else None
      | TClass c => val_class c []
      | TGeneric c args => val_class c args
      end
  end.

(** [utils.format(exc)], i.e. [str(exc)] (rendering abbreviated). *)
Definition format_errors (es : list string) : string := join "; " es.

(** [parse_typed_args]: parse the strings, then build [self.model] from the
    namespace; a validation error goes through [self.error]. *)
Definition parse_typed_args (st : store) (p : parser) (argv : list string) : outcome :=
  match parse_args p argv with
  | inr o => o
  | inl ns =>
      match construct (validate recursion_limit st) st (p_model p) ns with
      | inl inst => Returned inst
      | inr es => error p (format_errors es) []
      end
  end.

(** ** Auxiliary readings *)

(** The classification rule of the specification read branch by branch
    (rule 4: "[Container] if any branch is a repeatable collection that is
    not string-like, bytes-like, an enumeration, or a mapping"), to be
    compared with [classify]. *)
Definition classify_per_branch (annotation : option ty) : kind :=
  let bs := _iter_candidate_annotations annotation in
  let any x := existsb (fun b => _single_annotation_matches b x) bs in
  let container_branch b :=
    _single_annotation_matches b XContainer
    && negb (existsb (_single_annotation_matches b) [XMapping; XEnum; XStr; XBytes]) in
  if any XBaseModel then KCommand
  else if any XLiteral then KLiteral
  else if any XBool then KBoolean
  else if existsb container_branch bs then KContainer
  else if any XMapping then KMapping
  else if any XEnum then KEnum
  else KStandard.

(** Every sub-parser of the graph (at any depth) has [exit_on_error] off. *)
Fixpoint quietb (p : parser) : bool :=
  match p with
  | mkParser _ _ _ _ _ _ _ _ subs _ =>
      match subs with
      | None => true
      | Some l =>
          (fix go (l : list (string * parser)) : bool :=
             match l with
             | [] => true
             | (_, q) :: r => negb (p_exit_on_error q) && quietb q && go r
             end) l
      end
  end.

(** ** Example schemas *)

(** A field with no alias, no factory and no description. *)
Definition fld (ann : ty) (default : option pyval) : field :=
  mkField None (Some ann) default None None.

(** [Optional[t]], i.e. [typing.Union[t, None]]. *)
Definition opt (t : ty) : ty := TUnion UTyping [t; TNone].

Definition Color : enum_decl := mkEnum "Color" [("RED", 1%Z); ("GREEN", 2%Z)].
Definition Single : enum_decl := mkEnum "Single" [("A", 1%Z)].
Definition Pair : enum_decl := mkEnum "Pair" [("A", 1%Z); ("B", 2%Z)].

(** A store holding one model class with the given fields. *)
Definition one_model (cname : string) (fs : list (string * field)) : store :=
  [mkCls cname None fs []].

(** [ArgumentParser(model=<class 0>, prog="prog")] with its defaults. *)
Definition example_parser (literal_eval : caster) (st : store) : res (store * parser) :=
  new_parser literal_eval recursion_limit st 0 "prog" true true None.

(** [parse_typed_args(argv)] on that parser. *)
Definition example_run (literal_eval : caster) (st : store) (argv : list string) : option outcome :=
  match example_parser literal_eval st with
  | Ok (st', p) => Some (parse_typed_args st' p argv)
  | Err _ => None
  end.

(** [class Arguments(BaseModel): x: Optional[Literal["a"]] = "a"]. *)
Definition LitFlag : store :=
  one_model "Arguments" [("x", fld (opt (TLiteral [LStr "a"])) (Some (VStr "a")))].

(** [class Arguments(BaseModel): x: Optional[Single] = Single.A]. *)
Definition EnumFlag : store :=
  one_model "Arguments" [("x", fld (opt (TClass (CEnum Single))) (Some (VMember "Single" "A")))].

(** [x: Optional[Pair] = Pair.A]: a present default, a type admitting [None],
    two members. *)
Definition pair_field : field := fld (opt (TClass (CEnum Pair))) (Some (VMember "Pair" "A")).

(** [x: Optional[bool] = True]. *)
Definition optbool_field : field := fld (opt (TClass CBool)) (Some (VBool true)).

(** [class Arguments(BaseModel): x: int] (required). *)
Definition ReqInt : store := one_model "Arguments" [("x", fld (TClass CInt) None)].

(** [class Arguments(BaseModel): x: None] (required). *)
Definition NoneField : store := one_model "Arguments" [("x", fld TNone None)].

(** [class Arguments(BaseModel): flag: bool; other: bool = True]. *)
Definition Flags : store :=
  one_model "Arguments" [("flag", fld (TClass CBool) None);
                         ("other", fld (TClass CBool) (Some (VBool true)))].

(** A model with a sub-command: [class Sub(BaseModel): flag: bool = False] and
    [class Root(BaseModel): verbose: bool = False; cmd: Optional[Sub] = None]. *)
Definition Nested : store :=
  [mkCls "Root" None [("verbose", fld (TClass CBool) (Some (VBool false)));
                      ("cmd", fld (opt (TClass (CModel 1))) (Some VNone))] [];
   mkCls "Sub" None [("flag", fld (TClass CBool) (Some (VBool false)))] []].

(** The store relation of registration: classes are only added, and a class
    already present keeps its name, base and validators, each of its fields
    being unchanged or having had its alias defaulted in place. *)
Definition field_ext (kv kv' : string * field) : Prop :=
  fst kv' = fst kv /\ (snd kv' = snd kv \/ snd kv' = set_alias_default (fst kv) (snd kv)).

Definition cls_ext (c c' : cls) : Prop :=
  c_name c' = c_name c /\ c_base c' = c_base c /\ c_validators c' = c_validators c /\
  Forall2 field_ext (c_fields c) (c_fields c').

Definition st_ext (st st' : store) : Prop :=
  (length st <= length st')%nat /\
  forall i c, nth_error st i = Some c -> exists c', nth_error st' i = Some c' /\ cls_ext c c'.

(** What registration keeps of a parser: its [exit_on_error] setting, and
    that no sub-parser of its graph exits on error. *)
Definition frame (p p' : parser) : Prop :=
  p_exit_on_error p' = p_exit_on_error p /\ (quietb p = true -> quietb p' = true).

(** ** Registration invariants and parsing helpers *)

(** Every option string of a field argument (the required and optional
    groups) is a long option. *)
Definition long_options (p : parser) : Prop :=
  Forall (fun a => Forall (fun o => String.prefix "--" o = true) (act_options a))
         (p_required p ++ p_optional p).

(** The commands group, once created, holds distinct sub-command names, and
    each sub-parser's [prog] is the parent's [prog], a space and its name. *)
Definition commands_ok (p : parser) : Prop :=
  match p_subcommands p with
  | Some subs =>
      NoDup (map fst subs) /\
      Forall (fun kv => p_prog (snd kv) = (p_prog p ++ " " ++ fst kv)%string) subs
  | None => True
  end.

(** What registration keeps of a parser: no option string is registered
    twice, field options are long, and the commands group is as above. *)
Definition reg_inv (p : parser) : Prop :=
  NoDup (registered_options p) /\ long_options p /\ commands_ok p.

(** The actions [__init__] puts in the help group: [-h/--help] when
    [add_help], then [-v/--version] when [version] is a non-empty string. *)
Definition help_group (add_help : bool) (version : option string) : list action :=
  (if add_help then [help_action] else []) ++
  match version with
  | Some v => if String.eqb v "" then [] else [version_action]
  | None => []
  end.


(** Strings [_parse_known_args] collects as extras in a parser without a
    commands group: positionals and unknown option-like strings. *)
Definition plain_tok (t : tok) : bool :=
  match t with TPos | TUnknown => true | _ => false end.

(** * Properties *)

(** ** Type classification *)

Lemma is_field_a_branches (ann : option ty) (xs : list expected) :
  is_field_a ann xs =
  existsb (fun b => existsb (_single_annotation_matches b) xs) (_iter_candidate_annotations ann).
Proof.
  destruct ann as [t|]; simpl; [|reflexivity].
  destruct (iter_candidates_ty t); reflexivity.
Qed.

Lemma existsb_single_expected (bs : list ty) (x : expected) :
  existsb (fun b => existsb (_single_annotation_matches b) [x]) bs
  = existsb (fun b => _single_annotation_matches b x) bs.
Proof.
  induction bs as [| b bs IH]; simpl in *; [reflexivity|].
  rewrite orb_false_r, IH. reflexivity.
Qed.

Lemma union_cons_step (syn : union_syntax) (t : ty) (rest : list ty) :
  existsb is_TNone (iter_candidates_ty t) = false ->
  existsb is_TNone (iter_candidates_ty (TUnion syn rest)) = false ->
  existsb is_TNone (iter_candidates_ty (TUnion syn (t :: rest))) = false.
Proof.
  intros H1 H2. destruct t; simpl in *; try exact H2; try discriminate.
  rewrite existsb_app, H1. exact H2.
Qed.

Lemma union_cons_none (syn : union_syntax) (t : ty) (rest : list ty) :
  t = TNone ->
  existsb is_TNone (iter_candidates_ty (TUnion syn rest)) = false ->
  existsb is_TNone (iter_candidates_ty (TUnion syn (t :: rest))) = false.
Proof. intros -> H. exact H. Qed.

Fixpoint candidates_no_none (t : ty) : existsb is_TNone (iter_candidates_ty t) = false \/ t = TNone :=
  match t return existsb is_TNone (iter_candidates_ty t) = false \/ t = TNone with
  | TNone => or_intror eq_refl
  | TClass _ | TGeneric _ _ | TLiteral _ => or_introl eq_refl
  | TUnion syn ts => or_introl
      ((fix go (ts : list ty) : existsb is_TNone (iter_candidates_ty (TUnion syn ts)) = false :=
          match ts return existsb is_TNone (iter_candidates_ty (TUnion syn ts)) = false with
          | [] => eq_refl
          | t' :: rest =>
              match candidates_no_none t' with
              | or_introl H => union_cons_step syn t' rest H (go rest)
              | or_intror E => union_cons_none syn t' rest E (go rest)
              end
          end) ts)
  end.

(** C1 (as amended).  Unwrapping drops every [NoneType] member of a union
    (at any nesting), and the classification is the first match of the
    chain Command, Literal, Boolean, Container, Mapping, Enum, Standard, each
    test being "some remaining branch is ..."; the Container test is a
    whole-field test: some branch is a [collections.abc.Container] and no
    branch is a Mapping, an Enum, [str] or [bytes]. *)
Theorem C1_classify_first_match (ann : option ty) :
  (forall syn ts, existsb is_TNone (iter_candidates_ty (TUnion syn ts)) = false) /\
  classify ann =
  (let bs := _iter_candidate_annotations ann in
   let any x := existsb (fun b => _single_annotation_matches b x) bs in
   if any XBaseModel then KCommand
   else if any XLiteral then KLiteral
   else if any XBool then KBoolean
   else if any XContainer
           && negb (existsb (fun b => existsb (_single_annotation_matches b)
                                              [XMapping; XEnum; XStr; XBytes]) bs)
   then KContainer
   else if any XMapping then KMapping
   else if any XEnum then KEnum
   else KStandard).
Proof.
  split.
  - intros syn ts. destruct (candidates_no_none (TUnion syn ts)) as [H|H]; [exact H|discriminate].
  - unfold classify. rewrite !is_field_a_branches.
    rewrite !existsb_single_expected. reflexivity.
Qed.

(** C1 counterexample: for [Union[List[str], str]] the list branch is a
    collection that is not string-like, yet the field is not classified as a
    Container (it falls through to the Standard branch), because the [str]
    branch excludes the whole field. *)
Lemma C1_union_list_str_counterexample :
  let ann := Some (TUnion UTyping [TGeneric CList [TClass CStr]; TClass CStr]) in
  classify ann = KStandard /\ classify_per_branch ann = KContainer.
Proof. split; reflexivity. Qed.

(** ** Validators *)

(** C2.  The validator built by [as_validator] passes non-strings through,
    maps [""] to [None], returns the caster's value, and returns the raw
    string when the caster raises. *)
Theorem C2_validator_contract (fname : string) (c : caster) :
  let run := run_validator (v_caster (as_validator fname c)) in
  v_field (as_validator fname c) = fname /\
  (forall v, (forall s, v <> VStr s) -> run v = v) /\
  run (VStr "") = VNone /\
  (forall s r, s <> "" -> c s = Some r -> run (VStr s) = r) /\
  (forall s, s <> "" -> c s = None -> run (VStr s) = VStr s).
Proof.
  simpl. split; [reflexivity|]. split; [|split; [reflexivity|split]].
  - intros v Hv. destruct v; try reflexivity. exfalso. exact (Hv s eq_refl).
  - intros s r Hs Hc. unfold run_validator.
    destruct (String.eqb_spec s ""); [contradiction|]. rewrite Hc. reflexivity.
  - intros s Hs Hc. unfold run_validator.
    destruct (String.eqb_spec s ""); [contradiction|]. rewrite Hc. reflexivity.
Qed.

Lemma C2_validator_contract_witness :
  run_validator (enum_caster Color) (VInt 3) = VInt 3 /\
  run_validator (enum_caster Color) (VStr "GREEN") = VMember "Color" "GREEN" /\
  run_validator (enum_caster Color) (VStr "BLUE") = VStr "BLUE".
Proof.
  destruct (C2_validator_contract "color" (enum_caster Color)) as (_ & H1 & _ & H3 & H4).
  split; [|split].
  - apply H1. intros s; discriminate.
  - apply H3; [discriminate | reflexivity].
  - apply H4; [discriminate | reflexivity].
Defined.

(** ** Flag-only enumeration and literal fields *)

(** C3 (a defect of the Literal branch).  For [x: Optional[Literal["a"]] = "a"]
    the field is flag-only, omitting [--x] gives the default ["a"], but the
    bare flag [--x] stores the constant [None] (the [is_inverted] choice of the
    constant is applied to the primary flag too), so the instance holds
    [None], not the single choice ["a"]; the Enum branch, for the analogous
    [x: Optional[Single] = Single.A], stores the member. *)
Theorem C3_literal_flag_stores_none (literal_eval : caster) :
  example_run literal_eval LitFlag [] = Some (Returned (VObj 1 [("x", VStr "a")])) /\
  example_run literal_eval LitFlag ["--x"] = Some (Returned (VObj 1 [("x", VNone)])) /\
  example_run literal_eval EnumFlag ["--x"] =
    Some (Returned (VObj 1 [("x", VMember "Single" "A")])).
Proof. split; [|split]; vm_compute; reflexivity. Qed.

(** ** Registration of one argument *)

Lemma add_argument_shape (p p' : parser) (r : arg_request) :
  add_argument p r = Ok p' ->
  let a := mkAction (option_strings r) (r_kind r) (r_nargs r) (r_const r) (r_dest r)
                    (r_metavar r) false in
  (if r_required r
   then p' = set_required p (p_required p ++ [a])
   else p' = set_optional p (p_optional p ++ [a])) /\
  find (fun o => existsb (String.eqb o) (registered_options p)) (option_strings r) = None.
Proof.
  unfold add_argument. intros H.
  destruct (find _ (option_strings r)) eqn:Hf; [discriminate|].
  split; [|reflexivity].
  destruct (r_required r); injection H as <-; reflexivity.
Qed.

Lemma add_argument_length (p p' : parser) (r : arg_request) :
  add_argument p r = Ok p' -> length (all_actions p') = S (length (all_actions p)).
Proof.
  intros H. apply add_argument_shape in H. destruct H as [H _].
  destruct (r_required r); subst p'; unfold all_actions; simpl;
    rewrite !length_app; simpl; lia.
Qed.

Lemma add_argument_error (p : parser) (r : arg_request) (e : err) :
  add_argument p r = Err e -> exists m, e = ArgError m.
Proof.
  unfold add_argument. destruct (find _ _); [|destruct (r_required r)];
    intros H; inversion H; eauto.
Qed.

Lemma add_argument_base_length p f k n mv nm inv c p' :
  _add_argument_base p f k n mv nm inv c = Ok p' ->
  length (all_actions p') = S (length (all_actions p)).
Proof. apply add_argument_length. Qed.

Lemma bind_ok {A B} (m : res A) (k : A -> res B) (b : B) :
  bind m k = Ok b -> exists a, m = Ok a /\ k a = Ok b.
Proof. destruct m; simpl; [eauto | discriminate]. Qed.

Ltac ok_steps :=
  repeat match goal with
  | H : bind _ _ = Ok _ |- _ =>
      let a := fresh "a" in let Ha := fresh "Ha" in
      apply bind_ok in H; destruct H as (a & Ha & H)
  | H : Ok _ = Ok _ |- _ => injection H as H
  end.

(** C4 counterexample: [x: Optional[Pair] = Pair.A] (optional, a present
    default, a type admitting [None]) gets one argument only, as does
    [x: Optional[bool] = True], whose single argument is [--no-x] storing
    [False]. *)
Lemma C4_single_argument_counterexample :
  let p := init_parser "prog" true true None 0 in
  let added f := match _add_field (fun _ => None) (fun _ _ _ => Err RecursionLimit) [] p
                         (set_alias_default "x" f) "x" with
                 | Ok (_, p', _) => Some (p_optional p')
                 | Err _ => None
                 end in
  (is_required pair_field = false /\ is_not_none (get_default pair_field) = true /\
   allows_none pair_field = true /\
   option_map (@length action) (added pair_field) = Some 1) /\
  (is_required optbool_field = false /\ is_not_none (get_default optbool_field) = true /\
   allows_none optbool_field = true /\
   option_map (map (fun a => (act_options a, act_kind a))) (added optbool_field) =
     Some [(["--no-x"], StoreFalseAction)]).
Proof. vm_compute. repeat split. Qed.

(** ** Required and optional groups *)


(** ** Error reporting *)






Lemma parse_known_S (d : nat) (p : parser) (argv : list string) :
  parse_known (S d) p argv =
  let toks := map (fun s => (s, classify_token p s)) argv in
  match find is_ambiguous toks with
  | Some (_, TAmbiguous m) => RErrCall m []
  | _ => parse_loop (parse_known d) p (S (length toks)) toks [] []
  end.
Proof. reflexivity. Qed.


Lemma parse_args_unfold (p : parser) (argv : list string) :
  parse_args p argv =
  check_extras p (parse_known_args_result p (parse_known recursion_limit p argv)).
Proof. reflexivity. Qed.




(** ** Fields without a concrete type *)

Lemma none_matches_nothing (xs : list expected) :
  existsb (_single_annotation_matches TNone) xs = false.
Proof. induction xs as [| x xs IH]; [reflexivity|]. simpl. rewrite IH. destruct x; reflexivity. Qed.

Lemma only_none_is_nothing (bs : list ty) (xs : list expected) :
  forallb is_TNone bs = true ->
  existsb (fun b => existsb (_single_annotation_matches b) xs) bs = false.
Proof.
  induction bs as [| b bs IH]; simpl; [reflexivity|].
  intros H. apply andb_prop in H as [Hb H].
  destruct b; try discriminate. rewrite none_matches_nothing. exact (IH H).
Qed.

(** C7 (as amended).  A field whose annotation leaves no concrete branch
    (no annotation, or only [NoneType]) is classified as a Scalar and
    registered as an ordinary single-value option with the identity
    validator: registration can only fail as any option can (a conflicting
    option string), and the problem surfaces at parse time, when the value
    is validated. *)
Theorem C7_empty_type_registers (literal_eval : caster)
  (build_sub : store -> nat -> string -> res (store * parser))
  (st : store) (p : parser) (f : field) (fname : string) :
  forallb is_TNone (_iter_candidate_annotations (f_annotation f)) = true ->
  classify (f_annotation f) = KStandard /\
  _add_field literal_eval build_sub st p f fname =
    (p1 <- _add_argument_base p f StoreAction NargsNone None false false None ;;
     Ok (st, p1, Some (as_validator fname identity_caster))) /\
  (forall e, _add_field literal_eval build_sub st p f fname = Err e -> exists m, e = ArgError m).
Proof.
  intros H.
  assert (Hc : classify (f_annotation f) = KStandard).
  { unfold classify. rewrite !is_field_a_branches, !(only_none_is_nothing _ _ H). reflexivity. }
  split; [exact Hc|].
  assert (Ha : _add_field literal_eval build_sub st p f fname =
    (p1 <- _add_argument_base p f StoreAction NargsNone None false false None ;;
     Ok (st, p1, Some (as_validator fname identity_caster)))).
  { unfold _add_field. rewrite Hc. reflexivity. }
  split; [exact Ha|].
  intros e He. rewrite Ha in He.
  destruct (_add_argument_base p f StoreAction NargsNone None false false None) eqn:Eb;
    simpl in He; [discriminate|].
  injection He as ->. exact (add_argument_error _ _ _ Eb).
Qed.

Lemma C7_empty_type_registers_witness :
  let f := set_alias_default "x" (fld TNone None) in
  let p := init_parser "prog" true true None 0 in
  forallb is_TNone (_iter_candidate_annotations (f_annotation f)) = true /\
  classify (f_annotation f) = KStandard.
Proof.
  intros f p.
  assert (H : forallb is_TNone (_iter_candidate_annotations (f_annotation f)) = true)
    by reflexivity.
  split; [exact H|].
  exact (proj1 (C7_empty_type_registers (fun _ => None) (fun _ _ _ => Err RecursionLimit)
                  [] p f "x" H)).
Defined.

(** C7 counterexample: the model [x: None] (required) registers without
    error, and the problem is reported only when parsing. *)
Lemma C7_deferred_to_parse_counterexample :
  match example_parser (fun _ => None) NoneField with
  | Ok (st, p) =>
      map act_options (p_required p) = [["--x"]] /\
      parse_typed_args st p [] =
        Exited EXIT_ERROR ["usage: prog [options]"; "prog: error: x: Field required"] /\
      parse_typed_args st p ["--x"; "1"] =
        Exited EXIT_ERROR ["usage: prog [options]"; "prog: error: x: Input is not a valid value"]
  | Err _ => False
  end.
Proof. vm_compute. repeat split. Qed.

(** ** Boolean fields *)

Lemma substring_all (s : string) : substring 0 (String.length s) s = s.
Proof. induction s as [| c s IH]; simpl; [reflexivity|]. rewrite IH. reflexivity. Qed.

Lemma prefix_app (s t : string) : String.prefix s (s ++ t) = true.
Proof.
  induction s as [| c s IH]; simpl; [destruct t; reflexivity|].
  rewrite IH. destruct (Ascii.ascii_dec c c); [reflexivity|contradiction].
Qed.

Lemma boolean_option_strings (r : arg_request) (alias : string) :
  r_kind r = BooleanOptionalAction -> r_name r = ("--" ++ alias)%string ->
  option_strings r = [("--" ++ alias)%string; ("--no-" ++ alias)%string].
Proof.
  intros Hk Hn. unfold option_strings. rewrite Hk, Hn. simpl.
  replace (String.prefix "" alias) with true by (destruct alias; reflexivity).
  rewrite Nat.sub_0_r, substring_all. reflexivity.
Qed.


(** ** The parser graph *)

Lemma quietb_eq (p : parser) :
  quietb p = match p_subcommands p with
             | None => true
             | Some l => forallb (fun kv => negb (p_exit_on_error (snd kv)) && quietb (snd kv)) l
             end.
Proof.
  destruct p as [? ? ? ? ? ? ? ? [l|] ?]; simpl; [|reflexivity].
  induction l as [| [k q] r IH]; simpl; [reflexivity|]. rewrite IH. reflexivity.
Qed.

Lemma frame_refl (p : parser) : frame p p.
Proof. split; auto. Qed.

Lemma frame_trans (p q r : parser) : frame p q -> frame q r -> frame p r.
Proof. intros [E1 Q1] [E2 Q2]. split; [congruence | auto]. Qed.

Lemma frame_same_subs (p p' : parser) :
  p_subcommands p' = p_subcommands p -> p_exit_on_error p' = p_exit_on_error p -> frame p p'.
Proof. intros Hs He. split; [exact He|]. rewrite !quietb_eq, Hs. auto. Qed.

Lemma add_argument_frame (p p' : parser) (r : arg_request) :
  add_argument p r = Ok p' ->
  p_subcommands p' = p_subcommands p /\ p_exit_on_error p' = p_exit_on_error p /\
  p_groups p' = p_groups p /\ p_model p' = p_model p.
Proof.
  intros H. apply add_argument_shape in H as [H _].
  destruct (r_required r); subst p'; repeat split.
Qed.

Lemma add_argument_base_frame p f k n mv nm inv c p' :
  _add_argument_base p f k n mv nm inv c = Ok p' -> frame p p'.
Proof.
  intros H. apply add_argument_frame in H as (Hs & He & _).
  exact (frame_same_subs p p' Hs He).
Qed.

Lemma move_last_to_front_app (gs : list string) (g : string) :
  move_last_to_front (gs ++ [g]) = g :: gs.
Proof.
  unfold move_last_to_front. rewrite rev_app_distr. simpl. rewrite rev_involutive. reflexivity.
Qed.

Lemma commands_new (p : parser) :
  p_subcommands p = None ->
  _commands p = Ok (set_groups (set_subcommands p (Some [])) ("commands" :: p_groups p)).
Proof.
  intros H. unfold _commands, add_subparsers. rewrite H. simpl.
  rewrite move_last_to_front_app. reflexivity.
Qed.

Lemma commands_existing (p : parser) (subs : list (string * parser)) :
  p_subcommands p = Some subs -> _commands p = Ok p.
Proof. intros H. unfold _commands. rewrite H. reflexivity. Qed.

Lemma commands_frame (p p' : parser) :
  _commands p = Ok p' -> frame p p' /\ exists subs, p_subcommands p' = Some subs.
Proof.
  destruct (p_subcommands p) as [subs|] eqn:E.
  - rewrite (commands_existing p subs E). intros H. injection H as <-.
    split; [apply frame_refl | eauto].
  - rewrite (commands_new p E). intros H. injection H as <-.
    split; [split; [reflexivity|] | eexists; reflexivity].
    intros _. rewrite quietb_eq. reflexivity.
Qed.

Lemma add_parser_register_frame (p : parser) (nm : string) (sub : parser) :
  p_exit_on_error sub = false -> quietb sub = true ->
  frame p (add_parser_register p nm sub).
Proof.
  intros He Hq. unfold add_parser_register.
  destruct (p_subcommands p) as [subs|] eqn:E; [|apply frame_refl].
  split; [reflexivity|]. intros Hp. rewrite quietb_eq in Hp |- *. rewrite E in Hp. simpl.
  rewrite forallb_app, Hp. simpl. rewrite He, Hq. reflexivity.
Qed.

Lemma set_model_frame (p : parser) (m : nat) : frame p (set_model p m).
Proof. apply frame_same_subs; reflexivity. Qed.

Lemma init_parser_frame (prog : string) (e h : bool) (v : option string) (m : nat) :
  p_exit_on_error (init_parser prog e h v m) = e /\ quietb (init_parser prog e h v m) = true /\
  p_subcommands (init_parser prog e h v m) = None.
Proof.
  unfold init_parser. destruct h, v as [s|]; try destruct (String.eqb s "");
    repeat split.
Qed.

(** ** Registration and the class store *)

Lemma set_alias_default_idem (n : string) (f : field) :
  set_alias_default n (set_alias_default n f) = set_alias_default n f.
Proof.
  unfold set_alias_default. simpl.
  destruct (f_alias f) as [a|]; [destruct (String.eqb a "") eqn:E|].
  - destruct (String.eqb n "") eqn:En; [apply String.eqb_eq in En; subst n|]; reflexivity.
  - rewrite E. reflexivity.
  - destruct (String.eqb n "") eqn:En; [apply String.eqb_eq in En; subst n|]; reflexivity.
Qed.

Lemma field_ext_refl (kv : string * field) : field_ext kv kv.
Proof. split; auto. Qed.

Lemma field_ext_trans (a b c : string * field) : field_ext a b -> field_ext b c -> field_ext a c.
Proof.
  destruct a as [ka fa], b as [kb fb], c as [kc fc]. unfold field_ext. simpl.
  intros [-> S1] [-> S2]. split; [reflexivity|].
  destruct S1 as [-> | ->], S2 as [-> | ->]; auto.
  right. apply set_alias_default_idem.
Qed.

Lemma Forall2_field_ext_refl (l : list (string * field)) : Forall2 field_ext l l.
Proof. induction l; constructor; [apply field_ext_refl | assumption]. Qed.

Lemma Forall2_field_ext_trans (l1 : list (string * field)) :
  forall l2 l3, Forall2 field_ext l1 l2 -> Forall2 field_ext l2 l3 -> Forall2 field_ext l1 l3.
Proof.
  induction l1 as [| x l1 IH]; intros l2 l3 H1 H2; inversion H1; subst; inversion H2; subst;
    constructor; [eapply field_ext_trans; eassumption | eapply IH; eassumption].
Qed.

Lemma cls_ext_refl (c : cls) : cls_ext c c.
Proof. repeat split. apply Forall2_field_ext_refl. Qed.

Lemma cls_ext_trans (a b c : cls) : cls_ext a b -> cls_ext b c -> cls_ext a c.
Proof.
  intros (N1 & B1 & V1 & F1) (N2 & B2 & V2 & F2).
  repeat split; try congruence. eapply Forall2_field_ext_trans; eassumption.
Qed.

Lemma st_ext_refl (st : store) : st_ext st st.
Proof. split; [lia|]. intros i c H. exists c. split; [exact H | apply cls_ext_refl]. Qed.

Lemma st_ext_trans (a b c : store) : st_ext a b -> st_ext b c -> st_ext a c.
Proof.
  intros [L1 H1] [L2 H2]. split; [lia|]. intros i x Hx.
  destruct (H1 i x Hx) as (y & Hy & Exy). destruct (H2 i y Hy) as (z & Hz & Eyz).
  exists z. split; [exact Hz | eapply cls_ext_trans; eassumption].
Qed.

Lemma st_ext_app (st more : store) : st_ext st (st ++ more).
Proof.
  split; [rewrite length_app; lia|]. intros i c H. exists c. split; [|apply cls_ext_refl].
  rewrite nth_error_app1; [exact H|]. apply nth_error_Some. congruence.
Qed.

Lemma list_set_length {A} (xs : list A) : forall i x, length (list_set xs i x) = length xs.
Proof. induction xs as [| y xs IH]; intros [|i] x; simpl; auto. Qed.

Lemma list_set_nth {A} (xs : list A) :
  forall i j x, nth_error (list_set xs i x) j =
                if Nat.eqb i j then match nth_error xs j with Some _ => Some x | None => None end
                else nth_error xs j.
Proof.
  induction xs as [| y xs IH]; intros [|i] [|j] x; simpl; auto;
    destruct (Nat.eqb _ _); reflexivity.
Qed.

Lemma st_ext_list_set (st : store) (i : nat) (c c' : cls) :
  nth_error st i = Some c -> cls_ext c c' -> st_ext st (list_set st i c').
Proof.
  intros Hi Hc. split; [rewrite list_set_length; lia|]. intros j d Hj.
  rewrite list_set_nth. destruct (Nat.eqb i j) eqn:E.
  - apply Nat.eqb_eq in E. subst j. rewrite Hj. exists c'. split; [reflexivity|congruence].
  - exists d. split; [exact Hj | apply cls_ext_refl].
Qed.

Lemma st_ext_set_field_alias (st : store) (id : nat) (fname : string) :
  st_ext st (set_field_alias st id fname).
Proof.
  unfold set_field_alias. destruct (nth_error st id) as [c|] eqn:E; [|apply st_ext_refl].
  apply (st_ext_list_set st id c); [exact E|]. repeat split. simpl.
  induction (c_fields c) as [| [k f] r IH]; simpl; constructor; [|exact IH].
  destruct (String.eqb k fname) eqn:Ek; [|apply field_ext_refl].
  apply String.eqb_eq in Ek. subst k. split; [reflexivity | right; reflexivity].
Qed.

Lemma st_ext_nth (st st' : store) (i : nat) (c : cls) :
  st_ext st st' -> nth_error st i = Some c -> exists c', nth_error st' i = Some c' /\ cls_ext c c'.
Proof. intros [_ H]. apply H. Qed.

Section RegistrationFrame.

Variable literal_eval : caster.
Variable build_sub : store -> nat -> string -> res (store * parser).
Hypothesis build_sub_frame : forall st id prog st' q,
  build_sub st id prog = Ok (st', q) ->
  st_ext st st' /\ p_exit_on_error q = false /\ quietb q = true.

Lemma add_field_frame (st st' : store) (p p' : parser) (f : field) (fname : string)
  (v : option validator) :
  _add_field literal_eval build_sub st p f fname = Ok (st', p', v) ->
  st_ext st st' /\ frame p p'.
Proof.
  intros H. unfold _add_field in H. cbv zeta in H.
  destruct (classify (f_annotation f)).
  - destruct (_iter_candidate_annotations (f_annotation f)) as [| t ts]; [discriminate|].
    destruct t as [| c | c args | ls | syn ts']; try discriminate;
      destruct c; try discriminate;
      (ok_steps; destruct a1 as [st1 sub]; cbn in H; injection H; intros; subst;
       destruct (commands_frame p a Ha) as [F1 _];
       destruct (build_sub_frame _ _ _ _ _ Ha1) as (Hst & He & Hq);
       split; [exact Hst | eapply frame_trans; [exact F1 | apply add_parser_register_frame; assumption]]).
  - ok_steps. subst. split; [apply st_ext_refl|].
    apply add_argument_base_frame in Ha0.
    destruct (_ && allows_none f) in Ha;
      [apply add_argument_base_frame in Ha; eapply frame_trans; eassumption
      | injection Ha as <-; exact Ha0].
  - ok_steps. subst. split; [apply st_ext_refl|].
    eapply add_argument_base_frame; eassumption.
  - ok_steps. subst. split; [apply st_ext_refl|].
    eapply add_argument_base_frame; eassumption.
  - ok_steps. subst. split; [apply st_ext_refl|].
    eapply add_argument_base_frame; eassumption.
  - destruct (_iter_candidate_annotations (f_annotation f)) as [| t ts]; [discriminate|].
    destruct t as [| c | c args | ls | syn ts']; try discriminate; destruct c; try discriminate.
    ok_steps. subst. split; [apply st_ext_refl|].
    apply add_argument_base_frame in Ha0.
    destruct (_ && allows_none f) in Ha;
      [apply add_argument_base_frame in Ha; eapply frame_trans; eassumption
      | injection Ha as <-; exact Ha0].
  - ok_steps. subst. split; [apply st_ext_refl|].
    eapply add_argument_base_frame; eassumption.
Qed.

Lemma add_fields_frame (model : nat) (fs : list string) :
  forall st p vs st' p' vs',
  add_fields literal_eval build_sub model fs st p vs = Ok (st', p', vs') ->
  st_ext st st' /\ frame p p'.
Proof.
  induction fs as [| fname rest IH]; intros st p vs st' p' vs' H; simpl in H.
  - injection H; intros; subst. split; [apply st_ext_refl | apply frame_refl].
  - destruct (lookup_field _ model fname) as [f|]; [|discriminate].
    ok_steps. destruct a as [[st2 p2] v].
    destruct (add_field_frame _ _ _ _ _ _ _ Ha) as [S1 F1].
    destruct (IH _ _ _ _ _ _ H) as [S2 F2].
    split; [| eapply frame_trans; eassumption].
    eapply st_ext_trans; [apply st_ext_set_field_alias|]. eapply st_ext_trans; eassumption.
Qed.

Lemma add_model_frame (st st' : store) (p p' : parser) (model : nat) :
  _add_model literal_eval build_sub st p model = Ok (st', p') ->
  st_ext st st' /\ frame p p' /\
  exists c c0 c',
    nth_error st model = Some c /\ nth_error st' model = Some c0 /\ cls_ext c c0 /\
    nth_error st' (p_model p') = Some c' /\ (model < p_model p')%nat /\
    c_name c' = c_name c /\ c_base c' = Some model /\ c_fields c' = c_fields c0 /\
    exists vs, c_validators c' = c_validators c ++ vs.
Proof.
  intros H. unfold _add_model in H.
  destruct (nth_error st model) as [c|] eqn:Ec; [|discriminate].
  ok_steps. destruct a as [[st1 p1] vs].
  destruct (add_fields_frame _ _ _ _ _ _ _ _ Ha) as [S1 F1].
  unfold model_with_validators in H.
  destruct (st_ext_nth _ _ _ _ S1 Ec) as (c1 & Ec1 & X1).
  rewrite Ec1 in H. injection H as <- <-.
  assert (Hlt : (model < length st1)%nat).
  { apply nth_error_Some. congruence. }
  split; [eapply st_ext_trans; [exact S1 | apply st_ext_app]|].
  split; [eapply frame_trans; [exact F1 | apply set_model_frame]|].
  exists c, c1, (mkCls (c_name c1) (Some model) (c_fields c1) (c_validators c1 ++ vs)).
  destruct X1 as (N1 & B1 & V1 & Fs1).
  split; [reflexivity|]. split; [rewrite nth_error_app1; assumption|].
  split; [repeat split; assumption|].
  split; [simpl; rewrite nth_error_app2, Nat.sub_diag; [reflexivity | lia]|].
  split; [simpl; exact Hlt|].
  simpl. split; [exact N1|]. split; [reflexivity|]. split; [reflexivity|].
  exists vs. rewrite V1. reflexivity.
Qed.

End RegistrationFrame.

Lemma new_parser_frame (literal_eval : caster) (fuel : nat) :
  forall st m prog e h v st' q,
  new_parser literal_eval fuel st m prog e h v = Ok (st', q) ->
  st_ext st st' /\ p_exit_on_error q = e /\ quietb q = true.
Proof.
  induction fuel as [| fuel IH]; intros st m prog e h v st' q H; [discriminate|].
  simpl in H.
  destruct (add_model_frame literal_eval _
              (fun st id prog st' q Hb => IH st id prog false true None st' q Hb)
              _ _ _ _ _ H) as [S [[F Fq] _]].
  destruct (init_parser_frame prog e h v m) as (He & Hq & _).
  split; [exact S|]. split; [congruence | exact (Fq Hq)].
Qed.




(** C9.  The commands group of a parser is created on demand and once:
    [_commands] on a parser without it adds it (an empty sub-parser map)
    and moves its title to the front of the groups, leaving everything else
    as it was; on a parser with it, [_commands] returns the parser unchanged
    (argparse itself would refuse a second [add_subparsers]), so [_commands]
    is idempotent.  A nested-model field goes through [_commands] and adds
    one sub-parser by its alias, and every parser [ArgumentParser] builds
    keeps its own [exit_on_error] while all its sub-parsers, at any depth,
    have it off.  (Parsing returns an outcome only: it never changes the
    parser graph.) *)
Theorem C9_commands_group (literal_eval : caster) (p : parser) :
  (forall p', _commands p = Ok p' -> _commands p' = Ok p') /\
  (p_subcommands p = None ->
     exists p', _commands p = Ok p' /\ p_groups p' = "commands" :: p_groups p /\
       p_subcommands p' = Some [] /\ p_required p' = p_required p /\
       p_optional p' = p_optional p /\ p_help p' = p_help p /\
       p_exit_on_error p' = p_exit_on_error p /\ p_model p' = p_model p) /\
  (forall subs, p_subcommands p = Some subs ->
     _commands p = Ok p /\ exists e, add_subparsers p = Err e) /\
  (forall build_sub st f fname st' p' v,
     classify (f_annotation f) = KCommand ->
     _add_field literal_eval build_sub st p f fname = Ok (st', p', v) ->
     p_groups p' = match p_subcommands p with
                   | None => "commands" :: p_groups p
                   | Some _ => p_groups p
                   end /\
     p_required p' = p_required p /\ p_optional p' = p_optional p /\
     exists sub, p_subcommands p' =
       Some (match p_subcommands p with None => [] | Some subs => subs end
             ++ [(str_or (f_alias f) "", sub)])) /\
  (forall fuel st m prog e h ver st' q,
     new_parser literal_eval fuel st m prog e h ver = Ok (st', q) ->
     p_exit_on_error q = e /\ quietb q = true).
Proof.
  split; [|split; [|split; [|split]]].
  - intros p' H. destruct (commands_frame p p' H) as [_ [subs Es]].
    exact (commands_existing p' subs Es).
  - intros E. eexists. split; [exact (commands_new p E)|]. repeat split.
  - intros subs E. split; [exact (commands_existing p subs E)|].
    unfold add_subparsers. rewrite E. eexists. reflexivity.
  - intros build_sub st f fname st' p' v Hc H.
    unfold _add_field in H. rewrite Hc in H. cbv zeta in H.
    destruct (_iter_candidate_annotations (f_annotation f)) as [| t ts]; [discriminate|].
    destruct t as [| c | c args | ls | syn ts']; try discriminate;
      destruct c; try discriminate;
      ok_steps; destruct a1 as [st1 sub]; cbn in H; injection H; intros; subst;
      (destruct (p_subcommands p) as [subs|] eqn:E;
       [ rewrite (commands_existing p subs E) in Ha; injection Ha as <-;
         unfold add_parser_register; rewrite E;
         split; [reflexivity|]; split; [reflexivity|]; split; [reflexivity|];
         exists sub; reflexivity
       | rewrite (commands_new p E) in Ha; injection Ha as <-;
         split; [reflexivity|]; split; [reflexivity|]; split; [reflexivity|];
         exists sub; reflexivity ]).
  - intros fuel st m prog e h ver st' q H.
    destruct (new_parser_frame literal_eval fuel st m prog e h ver st' q H) as (_ & He & Hq).
    split; assumption.
Qed.

(** The nested example: the commands group heads the groups of [Root]'s
    parser, and its sub-parser [cmd] does not exit on error. *)
Lemma C9_commands_group_witness :
  match example_parser (fun _ => None) Nested with
  | Ok (st, p) =>
      p_groups p = ["commands"; "positional arguments"; "options"; "required arguments";
                    "optional arguments"; "help"] /\
      map (fun kv => (fst kv, p_exit_on_error (snd kv))) (match p_subcommands p with
                                                        | Some l => l | None => [] end)
        = [("cmd", false)] /\
      p_exit_on_error p = true /\ quietb p = true
  | Err _ => False
  end.
Proof.
  destruct (example_parser (fun _ => None) Nested) as [[st p]|e] eqn:E;
    [|vm_compute in E; discriminate].
  destruct (C9_commands_group (fun _ => None) p) as (_ & _ & _ & _ & H5).
  destruct (H5 recursion_limit Nested 0 "prog" true true None st p E) as [He Hq].
  split; [vm_compute in E; injection E as _ <-; reflexivity|].
  split; [vm_compute in E; injection E as _ <-; reflexivity|].
  split; [exact He | exact Hq].
Defined.




(** ** Further properties of the code *)

Lemma iter_union_cons (u : union_syntax) (t : ty) (rest : list ty) :
  iter_candidates_ty (TUnion u (t :: rest)) =
  (if is_TNone t then [] else iter_candidates_ty t) ++ iter_candidates_ty (TUnion u rest).
Proof. destruct t; reflexivity. Qed.

Lemma iter_union_flat (u : union_syntax) (ts : list ty) :
  iter_candidates_ty (TUnion u ts) =
  flat_map (fun t => if is_TNone t then [] else iter_candidates_ty t) ts.
Proof.
  induction ts as [| t ts IH]; [reflexivity|].
  rewrite iter_union_cons, IH. reflexivity.
Qed.

Lemma flat_cons (syn : union_syntax) (t : ty) (rest : list ty) :
  existsb (fun c => match c with TUnion _ _ => true | _ => false end) (iter_candidates_ty t) = false ->
  existsb (fun c => match c with TUnion _ _ => true | _ => false end)
          (iter_candidates_ty (TUnion syn rest)) = false ->
  existsb (fun c => match c with TUnion _ _ => true | _ => false end)
          (iter_candidates_ty (TUnion syn (t :: rest))) = false.
Proof.
  intros H1 H2. rewrite iter_union_cons, existsb_app, H2, orb_false_r.
  destruct (is_TNone t); [reflexivity | exact H1].
Qed.

Fixpoint candidates_flat (t : ty) :
  existsb (fun c => match c with TUnion _ _ => true | _ => false end) (iter_candidates_ty t) = false :=
  match t return
    existsb (fun c => match c with TUnion _ _ => true | _ => false end) (iter_candidates_ty t) = false
  with
  | TUnion syn ts =>
      (fix go (ts : list ty) :
         existsb (fun c => match c with TUnion _ _ => true | _ => false end)
                 (iter_candidates_ty (TUnion syn ts)) = false :=
         match ts return
           existsb (fun c => match c with TUnion _ _ => true | _ => false end)
                   (iter_candidates_ty (TUnion syn ts)) = false
         with
         | [] => eq_refl
         | t :: rest => flat_cons syn t rest (candidates_flat t) (go rest)
         end) ts
  | TNone | TClass _ | TGeneric _ _ | TLiteral _ => eq_refl
  end.

(** [_iter_candidate_annotations] flattens unions: the candidates of a
    union are those of its members in order, [NoneType] members dropped, no
    candidate is itself a union, and a non-union annotation is its own only
    candidate. *)
Theorem iter_candidates_flatten (u : union_syntax) (ts : list ty) (t : ty) :
  iter_candidates_ty (TUnion u ts) =
    flat_map (fun t => if is_TNone t then [] else iter_candidates_ty t) ts /\
  existsb (fun c => match c with TUnion _ _ => true | _ => false end) (iter_candidates_ty t) = false /\
  match t with TUnion _ _ => True | _ => iter_candidates_ty t = [t] end.
Proof.
  split; [apply iter_union_flat|]. split; [apply candidates_flat|].
  destruct t; [reflexivity..|exact I].
Qed.

Lemma matches_optional (u : union_syntax) (t : ty) (xs : list expected) :
  is_field_a (Some (TUnion u [t; TNone])) xs = is_field_a (Some t) xs /\
  is_field_a (Some (TUnion u [TNone; t])) xs = is_field_a (Some t) xs.
Proof.
  rewrite !is_field_a_branches. unfold _iter_candidate_annotations.
  rewrite !iter_union_cons. simpl iter_candidates_ty at 2 4. simpl (is_TNone TNone).
  rewrite !app_nil_r. simpl app.
  destruct t; simpl is_TNone; try (split; reflexivity).
  simpl. rewrite none_matches_nothing. split; reflexivity.
Qed.

(** [Optional[T]], [Union[T, None]], [Union[None, T]] and [T | None] are
    classified as [T] itself. *)
Theorem classify_optional (u : union_syntax) (t : ty) :
  classify (Some (TUnion u [t; TNone])) = classify (Some t) /\
  classify (Some (TUnion u [TNone; t])) = classify (Some t).
Proof.
  unfold classify. cbv zeta.
  split; rewrite !(proj1 (matches_optional u t _)) || rewrite !(proj2 (matches_optional u t _));
    reflexivity.
Qed.

Lemma dict_get_set {A} (k k' : string) (x : A) (d : list (string * A)) :
  dict_get k (dict_set k' x d) = if String.eqb k k' then Some x else dict_get k d.
Proof.
  induction d as [| [k'' y] rest IH]; simpl; [reflexivity|].
  destruct (String.eqb k' k'') eqn:E.
  - apply String.eqb_eq in E. subst k''. simpl. destruct (String.eqb k k'); reflexivity.
  - simpl. rewrite IH. destruct (String.eqb k k'') eqn:E2; [|reflexivity].
    apply String.eqb_eq in E2. subst k''. rewrite String.eqb_sym, E. reflexivity.
Qed.

Lemma dict_set_keys {A} (k k' : string) (x : A) (d : list (string * A)) :
  In k' (map fst (dict_set k x d)) <-> k' = k \/ In k' (map fst d).
Proof.
  induction d as [| [k'' y] rest IH]; simpl; [firstorder congruence|].
  destruct (String.eqb k k'') eqn:E; simpl.
  - apply String.eqb_eq in E. subst k''. firstorder congruence.
  - rewrite IH. firstorder congruence.
Qed.

Lemma dict_set_nodup {A} (k : string) (x : A) (d : list (string * A)) :
  NoDup (map fst d) -> NoDup (map fst (dict_set k x d)).
Proof.
  induction d as [| [k'' y] rest IH]; simpl; intros H.
  - constructor; [intros []|constructor].
  - inversion H as [| ? ? Hn Hr]; subst.
    destruct (String.eqb k k'') eqn:E; simpl.
    + apply String.eqb_eq in E. subst k''. constructor; assumption.
    + constructor; [|exact (IH Hr)]. rewrite dict_set_keys.
      intros [Heq | Hin]; [|contradiction].
      subst. rewrite String.eqb_refl in E. discriminate.
Qed.

(** [update_validators] is a dictionary insert: looking the new
    validator's name up gives it, other names are unaffected, the keys stay
    distinct and are the old keys plus the new name. *)
Theorem update_validators_lookup (vs : list (string * validator)) (v : validator) (k : string) :
  dict_get k (update_validators vs (Some v)) =
    (if String.eqb k (v_name v) then Some v else dict_get k vs) /\
  (NoDup (map fst vs) -> NoDup (map fst (update_validators vs (Some v)))) /\
  (forall k', In k' (map fst (update_validators vs (Some v))) <-> k' = v_name v \/ In k' (map fst vs)).
Proof.
  simpl. split; [apply dict_get_set|]. split; [apply dict_set_nodup|]. intros k'. apply dict_set_keys.
Qed.

Lemma find_app_single {A} (f : A -> bool) (l : list A) (a : A) :
  find f (l ++ [a]) = match find f l with Some x => Some x | None => if f a then Some a else None end.
Proof. induction l as [| y l IH]; simpl; [reflexivity|]. destruct (f y); [reflexivity|exact IH]. Qed.

Lemma fold_choice_mapping (cs : list choice) : forall (d0 : list (string * pyval)) (s : string),
  dict_get s (fold_left (fun d c => dict_set (str_choice c) (choice_val c) d) cs d0) =
  match find (fun c => String.eqb (str_choice c) s) (rev cs) with
  | Some c => Some (choice_val c)
  | None => dict_get s d0
  end.
Proof.
  induction cs as [| c cs IH]; intros d0 s; [reflexivity|].
  simpl. rewrite IH, find_app_single, dict_get_set, (String.eqb_sym s).
  destruct (find _ (rev cs)); [reflexivity|]. destruct (String.eqb (str_choice c) s); reflexivity.
Qed.

Lemma nodup_map_inj {A B} (f : A -> B) (l : list A) (a b : A) :
  NoDup (map f l) -> In a l -> In b l -> f a = f b -> a = b.
Proof.
  induction l as [| x l IH]; simpl; [contradiction|]. intros H Ha Hb E.
  inversion H as [| ? ? Hn Hr]; subst.
  destruct Ha as [<- | Ha], Hb as [<- | Hb]; auto.
  - exfalso. apply Hn. rewrite E. apply in_map. exact Hb.
  - exfalso. apply Hn. rewrite <- E. apply in_map. exact Ha.
Qed.

Lemma literal_caster_find (cs : list choice) (s : string) :
  literal_caster cs s =
    option_map choice_val (find (fun c => String.eqb (str_choice c) s) (rev cs)).
Proof.
  unfold literal_caster, choice_mapping. rewrite fold_choice_mapping.
  destruct (find _ _); reflexivity.
Qed.

Lemma literal_caster_member (cs : list choice) (c : choice) :
  NoDup (map str_choice cs) -> In c cs -> literal_caster cs (str_choice c) = Some (choice_val c).
Proof.
  intros Hd Hc. rewrite literal_caster_find.
  destruct (find (fun c' => String.eqb (str_choice c') (str_choice c)) (rev cs)) as [c'|] eqn:F.
  - apply find_some in F as [Hin Heq]. apply String.eqb_eq in Heq. apply in_rev in Hin.
    simpl. f_equal. f_equal. exact (nodup_map_inj _ _ _ _ Hd Hin Hc Heq).
  - exfalso. assert (Hf := find_none _ _ F c). rewrite <- in_rev, String.eqb_refl in Hf.
    discriminate (Hf Hc).
Qed.

(** The Literal caster [mapping[str(v)]] returns the value of the last
    choice whose [str()] is [v]; when the renderings are distinct every choice
    is recovered from its rendering; a non-empty string that is no rendering
    is left as it is by the validator. *)
Theorem literal_caster_lookup (cs : list choice) (s : string) :
  literal_caster cs s =
    option_map choice_val (find (fun c => String.eqb (str_choice c) s) (rev cs)) /\
  (NoDup (map str_choice cs) -> forall c, In c cs -> literal_caster cs (str_choice c) = Some (choice_val c)) /\
  (s <> "" -> run_validator (literal_caster cs) (VStr s) =
     match literal_caster cs s with Some v => v | None => VStr s end).
Proof.
  split; [apply literal_caster_find|]. split; [intros Hd c Hc; exact (literal_caster_member cs c Hd Hc)|].
  intros Hs. simpl. destruct (String.eqb s "") eqn:Es; [apply String.eqb_eq in Es; contradiction|].
  reflexivity.
Qed.

Lemma has_char_app (x : ascii) (s t : string) :
  has_char x (s ++ t) = has_char x s || has_char x t.
Proof. induction s as [| c s IH]; simpl; [reflexivity|]. rewrite IH, orb_assoc. reflexivity. Qed.

Lemma dashes_no_underscore (s : string) : has_char "_" (map_string underscore_to_dash s) = false.
Proof.
  induction s as [| c s IH]; simpl; [reflexivity|]. rewrite IH, orb_false_r.
  unfold underscore_to_dash. destruct (Ascii.eqb c "_") eqn:E; [reflexivity|exact E].
Qed.

Lemma map_string_length (g : ascii -> ascii) (s : string) :
  String.length (map_string g s) = String.length s.
Proof. induction s as [| c s IH]; simpl; [reflexivity|]. rewrite IH. reflexivity. Qed.

Lemma string_length_app (s t : string) :
  String.length (s ++ t) = String.length s + String.length t.
Proof. induction s as [| c s IH]; simpl; [reflexivity|]. rewrite IH. reflexivity. Qed.

(** [utils.name]: the option starts with [--] (or [--no-]), contains no
    underscore, and is as long as the prefix and the alias together. *)
Theorem name_shape (f : field) (inv : bool) :
  let alias := match f_alias f with Some a => a | None => "" end in
  let pre := if inv then "--no-" else "--" in
  String.prefix pre (name f inv) = true /\ has_char "_" (name f inv) = false /\
  String.length (name f inv) = String.length pre + String.length alias.
Proof.
  cbv zeta. unfold name. split; [apply prefix_app|]. split.
  - rewrite has_char_app, dashes_no_underscore. destruct inv; reflexivity.
  - rewrite string_length_app, map_string_length. reflexivity.
Qed.





Lemma prefix_split (s t : string) : String.prefix s t = true -> exists u, t = (s ++ u)%string.
Proof.
  revert t. induction s as [| c s IH]; intros t H; [exists t; reflexivity|].
  destruct t as [| c' t]; [discriminate|]. simpl in H.
  destruct (Ascii.ascii_dec c c') as [<-|]; [|discriminate].
  destruct (IH t H) as [u ->]. exists u. reflexivity.
Qed.

Lemma option_strings_long (r : arg_request) :
  String.prefix "--" (r_name r) = true ->
  NoDup (option_strings r) /\ Forall (fun o => String.prefix "--" o = true) (option_strings r).
Proof.
  intros Hp. unfold option_strings.
  destruct (r_kind r);
    try (split; [repeat constructor; intros [] | repeat constructor; exact Hp]).
  rewrite Hp. destruct (prefix_split _ _ Hp) as [t Ht]. rewrite Ht.
  assert (Es : substring 2 (String.length ("--" ++ t) - 2) ("--" ++ t) = t).
  { simpl. rewrite Nat.sub_0_r. apply substring_all. }
  rewrite Es.
  split.
  - constructor; [|repeat constructor; intros []]. intros [H | []].
    injection H as H. apply (f_equal String.length) in H.
    simpl in H. rewrite ?string_length_app in H. simpl in H. lia.
  - constructor; [apply prefix_app|].
    constructor; [apply (prefix_app "--" ("no-" ++ t)) | constructor].
Qed.

Lemma nodup_insert {A} (l1 l2 os : list A) : NoDup (os ++ l1 ++ l2) -> NoDup (l1 ++ os ++ l2).
Proof. apply Permutation_NoDup, Permutation_app_swap_app. Qed.

Lemma find_none_disjoint (os rs : list string) :
  find (fun o => existsb (String.eqb o) rs) os = None -> forall x, In x os -> ~ In x rs.
Proof.
  intros H x Hx Hr. apply (find_none _ _ H) in Hx.
  assert (E : existsb (String.eqb x) rs = true) by (apply existsb_exists; exists x; split; [exact Hr | apply String.eqb_refl]).
  congruence.
Qed.

Lemma add_argument_inv (p p' : parser) (r : arg_request) :
  add_argument p r = Ok p' -> String.prefix "--" (r_name r) = true -> reg_inv p ->
  reg_inv p' /\ p_help p' = p_help p /\ p_prog p' = p_prog p /\ p_subcommands p' = p_subcommands p.
Proof.
  intros H Hp (Hn & Hl & Hc). apply add_argument_shape in H as [Hs Hf].
  destruct (option_strings_long r Hp) as [Hon Hol].
  assert (Hall : NoDup (option_strings r ++ registered_options p)).
  { apply NoDup_app; [exact Hon | exact Hn | exact (find_none_disjoint _ _ Hf)]. }
  cbv zeta in Hs. revert Hs Hall Hl Hc. clear Hn Hf.
  unfold reg_inv, registered_options, long_options, commands_ok, all_actions.
  intros Hs Hall Hl Hc.
  destruct (r_required r); subst p'; destruct p as [pr e ah v gs req opt hlp subs m];
    simpl in *; (split; [split; [|split] | repeat split]); try exact Hc.
  - rewrite <- app_assoc, !flat_map_app. simpl. rewrite app_nil_r.
    apply nodup_insert. rewrite !flat_map_app in Hall. exact Hall.
  - rewrite <- app_assoc. apply Forall_app. apply Forall_app in Hl as [H1 H2].
    split; [exact H1|]. apply Forall_app; split; [repeat constructor; exact Hol | exact H2].
  - rewrite !flat_map_app. simpl. rewrite app_nil_r, <- !app_assoc.
    rewrite (app_assoc (flat_map act_options req)).
    apply nodup_insert. rewrite <- app_assoc. rewrite !flat_map_app in Hall. exact Hall.
  - rewrite app_assoc. apply Forall_app. split; [exact Hl | repeat constructor; exact Hol].
Qed.

Lemma commands_inv (p p1 : parser) :
  _commands p = Ok p1 -> reg_inv p ->
  reg_inv p1 /\ p_help p1 = p_help p /\ p_prog p1 = p_prog p /\ all_actions p1 = all_actions p.
Proof.
  intros H Hi. destruct (p_subcommands p) as [subs|] eqn:E.
  - rewrite (commands_existing p subs E) in H. injection H as <-. repeat split; apply Hi.
  - rewrite (commands_new p E) in H. injection H as <-.
    destruct p as [pr e ah v gs req opt hlp subs m]. simpl in *. destruct Hi as (Hn & Hl & _).
    repeat split; try assumption; constructor.
Qed.

Lemma register_inv (p : parser) (nm : string) (sub : parser) :
  reg_inv p -> add_parser_check p nm = Ok tt -> p_prog sub = (p_prog p ++ " " ++ nm)%string ->
  reg_inv (add_parser_register p nm sub) /\ p_help (add_parser_register p nm sub) = p_help p /\
  p_prog (add_parser_register p nm sub) = p_prog p /\
  all_actions (add_parser_register p nm sub) = all_actions p.
Proof.
  intros (Hn & Hl & Hc) Hk Hs. unfold add_parser_check, add_parser_register, commands_ok in *.
  destruct p as [pr e ah v gs req opt hlp [subs|] m]; simpl in *; [|discriminate].
  destruct (existsb _ subs) eqn:Ex; [discriminate|]. destruct Hc as [Hd Hf].
  repeat split; try assumption.
  - rewrite map_app. apply NoDup_app; [exact Hd | repeat constructor; intros [] | ].
    intros x Hx [<- | []]. apply in_map_iff in Hx as [[k q] [Hk' Hin]]. simpl in Hk'. subst k.
    assert (E : existsb (fun kv => String.eqb (fst kv) nm) subs = true)
      by (apply existsb_exists; exists (nm, q); split; [exact Hin | apply String.eqb_refl]).
    congruence.
  - apply Forall_app. split; [exact Hf | repeat constructor; exact Hs].
Qed.

Lemma name_long (f : field) (inv : bool) : String.prefix "--" (name f inv) = true.
Proof.
  unfold name. destruct inv; [apply (prefix_app "--" ("no-" ++ _)) | apply prefix_app].
Qed.

Lemma add_argument_base_inv p f k n mv nm inv c p' :
  _add_argument_base p f k n mv nm inv c = Ok p' -> reg_inv p ->
  reg_inv p' /\ p_help p' = p_help p /\ p_prog p' = p_prog p.
Proof.
  intros H Hi. destruct (add_argument_inv _ _ _ H (name_long f inv) Hi) as (? & ? & ? & _).
  auto.
Qed.

Section RegistrationInvariant.

Variable literal_eval : caster.
Variable build_sub : store -> nat -> string -> res (store * parser).
Hypothesis build_sub_prog : forall st id prog st' q,
  build_sub st id prog = Ok (st', q) -> p_prog q = prog.

Lemma add_field_inv (st st' : store) (p p' : parser) (f : field) (fname : string)
  (v : option validator) :
  _add_field literal_eval build_sub st p f fname = Ok (st', p', v) -> reg_inv p ->
  reg_inv p' /\ p_help p' = p_help p /\ p_prog p' = p_prog p.
Proof.
  intros H Hi. unfold _add_field in H. cbv zeta in H.
  destruct (classify (f_annotation f)).
  - destruct (_iter_candidate_annotations (f_annotation f)) as [| t ts]; [discriminate|].
    destruct t as [| c | c args | ls | syn ts']; try discriminate;
      destruct c; try discriminate;
      (ok_steps; destruct a1 as [st1 sub]; cbn in H; injection H; intros; subst;
       destruct a0;
       destruct (commands_inv p a Ha Hi) as (Hi1 & Hh1 & Hp1 & _);
       destruct (register_inv a (str_or (f_alias f) "") sub Hi1 Ha0) as (Hi2 & Hh2 & Hp2 & _);
       [rewrite (build_sub_prog _ _ _ _ _ Ha1), Hp1; reflexivity|];
       split; [exact Hi2 | split; congruence]).
  - ok_steps. subst.
    destruct (_ && allows_none f) in Ha.
    + destruct (add_argument_base_inv _ _ _ _ _ _ _ _ _ Ha Hi) as (Hi1 & Hh1 & Hp1).
      destruct (add_argument_base_inv _ _ _ _ _ _ _ _ _ Ha0 Hi1) as (Hi2 & Hh2 & Hp2).
      split; [exact Hi2 | split; congruence].
    + injection Ha as <-. exact (add_argument_base_inv _ _ _ _ _ _ _ _ _ Ha0 Hi).
  - ok_steps. subst. exact (add_argument_base_inv _ _ _ _ _ _ _ _ _ Ha Hi).
  - ok_steps. subst. exact (add_argument_base_inv _ _ _ _ _ _ _ _ _ Ha Hi).
  - ok_steps. subst. exact (add_argument_base_inv _ _ _ _ _ _ _ _ _ Ha Hi).
  - destruct (_iter_candidate_annotations (f_annotation f)) as [| t ts]; [discriminate|].
    destruct t as [| c | c args | ls | syn ts']; try discriminate; destruct c; try discriminate.
    ok_steps. subst.
    destruct (_ && allows_none f) in Ha.
    + destruct (add_argument_base_inv _ _ _ _ _ _ _ _ _ Ha Hi) as (Hi1 & Hh1 & Hp1).
      destruct (add_argument_base_inv _ _ _ _ _ _ _ _ _ Ha0 Hi1) as (Hi2 & Hh2 & Hp2).
      split; [exact Hi2 | split; congruence].
    + injection Ha as <-. exact (add_argument_base_inv _ _ _ _ _ _ _ _ _ Ha0 Hi).
  - ok_steps. subst. exact (add_argument_base_inv _ _ _ _ _ _ _ _ _ Ha Hi).
Qed.

Lemma add_fields_inv (model : nat) (fs : list string) :
  forall st p vs st' p' vs',
  add_fields literal_eval build_sub model fs st p vs = Ok (st', p', vs') -> reg_inv p ->
  reg_inv p' /\ p_help p' = p_help p /\ p_prog p' = p_prog p.
Proof.
  induction fs as [| fname rest IH]; intros st p vs st' p' vs' H Hi; simpl in H.
  - injection H; intros; subst. auto.
  - destruct (lookup_field _ model fname) as [f|]; [|discriminate].
    ok_steps. destruct a as [[st2 p2] v].
    destruct (add_field_inv _ _ _ _ _ _ _ Ha Hi) as (Hi1 & Hh1 & Hp1).
    destruct (IH _ _ _ _ _ _ H Hi1) as (Hi2 & Hh2 & Hp2).
    split; [exact Hi2 | split; congruence].
Qed.

Lemma add_model_inv (st st' : store) (p p' : parser) (model : nat) :
  _add_model literal_eval build_sub st p model = Ok (st', p') -> reg_inv p ->
  reg_inv p' /\ p_help p' = p_help p /\ p_prog p' = p_prog p.
Proof.
  intros H Hi. unfold _add_model in H.
  destruct (nth_error st model) as [c|]; [|discriminate].
  ok_steps. destruct a as [[st1 p1] vs].
  destruct (add_fields_inv _ _ _ _ _ _ _ _ Ha Hi) as (Hi1 & Hh1 & Hp1).
  destruct (model_with_validators st1 model vs) as [[st2 id]|]; [|discriminate].
  injection H as <- <-. destruct p1. exact (conj Hi1 (conj Hh1 Hp1)).
Qed.

End RegistrationInvariant.

Lemma init_parser_inv (prog : string) (e h : bool) (v : option string) (m : nat) :
  reg_inv (init_parser prog e h v m) /\ p_help (init_parser prog e h v m) = help_group h v /\
  p_prog (init_parser prog e h v m) = prog.
Proof.
  unfold init_parser, help_group.
  destruct h, v as [s|]; try destruct (String.eqb s "");
    (split; [|split; reflexivity]); repeat split; simpl;
    repeat constructor; simpl; intuition discriminate.
Qed.

Lemma new_parser_inv (literal_eval : caster) (fuel : nat) :
  forall st m prog e h v st' q,
  new_parser literal_eval fuel st m prog e h v = Ok (st', q) ->
  reg_inv q /\ p_help q = help_group h v /\ p_prog q = prog.
Proof.
  induction fuel as [| fuel IH]; intros st m prog e h v st' q H; [discriminate|].
  simpl in H.
  destruct (init_parser_inv prog e h v m) as (Hi & Hh & Hp).
  destruct (add_model_inv literal_eval _
              (fun st id prog st' q Hb => proj2 (proj2 (IH st id prog false true None st' q Hb)))
              _ _ _ _ _ H Hi) as (Hi' & Hh' & Hp').
  split; [exact Hi'|]. split; congruence.
Qed.

Lemma nodup_app_disj {A} (l1 l2 : list A) (x : A) : NoDup (l1 ++ l2) -> In x l1 -> In x l2 -> False.
Proof.
  induction l1 as [| y l1 IH]; simpl; intros H H1 H2; [contradiction|].
  inversion H as [| ? ? Hn Hr]; subst.
  destruct H1 as [<- | H1]; [apply Hn, in_or_app; right; exact H2 | exact (IH Hr H1 H2)].
Qed.

Lemma find_action_unique (p : parser) (a : action) (o : string) :
  NoDup (registered_options p) -> In a (all_actions p) -> In o (act_options a) ->
  find_action p o = Some a.
Proof.
  unfold find_action, registered_options. generalize (all_actions p) as l.
  induction l as [| b l IH]; simpl; intros Hn Ha Ho; [contradiction|].
  destruct (existsb (String.eqb o) (act_options b)) eqn:Eb.
  - destruct Ha as [<- | Ha]; [reflexivity|]. exfalso.
    apply existsb_exists in Eb as [o' [Ho' Eo]]. apply String.eqb_eq in Eo. subst o'.
    apply (nodup_app_disj _ _ o Hn Ho'). apply in_flat_map. eauto.
  - destruct Ha as [<- | Ha].
    + exfalso. assert (E : existsb (String.eqb o) (act_options b) = true)
        by (apply existsb_exists; exists o; split; [exact Ho | apply String.eqb_refl]).
      congruence.
    + apply IH; [exact (NoDup_app_remove_l _ _ Hn) | exact Ha | exact Ho].
Qed.

Lemma classify_known (p : parser) (o : string) (a : action) :
  find_action p o = Some a -> String.prefix "-" o = true -> classify_token p o = TOpt a o None.
Proof.
  intros Hf Hp. destruct (prefix_split _ _ Hp) as [u ->].
  cbn [append] in Hf |- *. unfold classify_token. rewrite Hf. reflexivity.
Qed.

Lemma classify_positional (p : parser) (s : string) :
  String.prefix "-" s = false -> classify_token p s = TPos.
Proof.
  intros Hp. destruct s as [| c r]; [reflexivity|].
  unfold classify_token. destruct (Ascii.eqb c "-") eqn:E; [|reflexivity].
  apply Ascii.eqb_eq in E. subst c. change (String "-" r) with ("-" ++ r)%string in Hp.
  rewrite prefix_app in Hp. discriminate Hp.
Qed.

Lemma parse_loop_help (sp : parser -> list string -> raw) (p : parser) (f : nat) (o : string)
  (a : action) (ts : list (string * tok)) (ns : namespace) (ex : list string) :
  act_kind a = HelpAction \/ act_kind a = VersionAction ->
  parse_loop sp p (S f) ((o, TOpt a o None) :: ts) ns ex = RDone (Exited 0 []).
Proof. intros [E|E]; simpl; rewrite E; destruct (act_nargs a); reflexivity. Qed.

Lemma parse_known_help (d : nat) (p : parser) (o : string) (a : action) (rest : list string) :
  find_action p o = Some a -> act_kind a = HelpAction \/ act_kind a = VersionAction ->
  String.prefix "-" o = true ->
  find is_ambiguous (map (fun s => (s, classify_token p s)) rest) = None ->
  parse_known (S d) p (o :: rest) = RDone (Exited 0 []).
Proof.
  intros Hf Hk Hp Ha. rewrite parse_known_S. cbv zeta. cbn [map].
  rewrite (classify_known p o a Hf Hp). cbn [find]. unfold is_ambiguous at 1. cbn [snd].
  rewrite Ha. cbn [length]. apply parse_loop_help. exact Hk.
Qed.

Lemma help_group_options (h : bool) (v : option string) (a : action) (o : string) :
  In a (help_group h v) -> In o (act_options a) ->
  (act_kind a = HelpAction \/ act_kind a = VersionAction) /\ String.prefix "-" o = true.
Proof.
  unfold help_group. intros Ha Ho.
  assert (Hhv : a = help_action \/ a = version_action).
  { apply in_app_or in Ha as [Ha | Ha].
    - destruct h; simpl in Ha; intuition.
    - destruct v as [s|]; [destruct (String.eqb s "")|]; simpl in Ha; intuition. }
  destruct Hhv as [-> | ->]; simpl in Ho; (split; [auto|]);
    repeat destruct Ho as [<- | Ho]; try contradiction; reflexivity.
Qed.

(** On a parser [ArgumentParser] built, any help or version option string
    ends [parse_typed_args] with exit status 0 and nothing on standard error,
    whatever strings follow, unless one of them is an ambiguous
    abbreviation. *)
Theorem help_flags_exit (literal_eval : caster) (fuel : nat) (st : store) (m : nat)
  (prog : string) (e h : bool) (v : option string) (st' st2 : store) (q : parser)
  (a : action) (o : string) (rest : list string) :
  new_parser literal_eval fuel st m prog e h v = Ok (st', q) ->
  In a (help_group h v) -> In o (act_options a) ->
  find is_ambiguous (map (fun s => (s, classify_token q s)) rest) = None ->
  parse_typed_args st2 q (o :: rest) = Exited 0 [].
Proof.
  intros Hq Ha Ho Hr.
  destruct (new_parser_inv _ _ _ _ _ _ _ _ _ _ Hq) as ((Hn & _ & _) & Hh & _).
  destruct (help_group_options h v a o Ha Ho) as [Hk Hp].
  assert (Hin : In a (all_actions q))
    by (unfold all_actions; rewrite Hh; apply in_or_app; right; apply in_or_app; right; exact Ha).
  assert (Hf := find_action_unique q a o Hn Hin Ho).
  unfold parse_typed_args. rewrite parse_args_unfold. unfold recursion_limit.
  rewrite (parse_known_help 999 q o a rest Hf Hk Hp Hr). reflexivity.
Qed.

Lemma help_flags_exit_witness :
  exists st' q, new_parser (fun _ => None) recursion_limit ReqInt 0 "prog" true true (Some "1.0")
                  = Ok (st', q) /\
    parse_typed_args st' q ["--version"; "--x"; "5"] = Exited 0 [].
Proof.
  eexists. eexists. split; [vm_compute; reflexivity|].
  eapply (help_flags_exit (fun _ => None) recursion_limit ReqInt 0 "prog" true true (Some "1.0")
           _ _ _ version_action "--version" ["--x"; "5"]).
  - vm_compute. reflexivity.
  - right. left. reflexivity.
  - right. left. reflexivity.
  - vm_compute. reflexivity.
Defined.





Lemma parse_loop_extras (sp : parser -> list string -> raw) (p : parser) :
  p_subcommands p = None ->
  forall ts f ns ex, forallb (fun t => plain_tok (snd t)) ts = true -> length ts < f ->
  parse_loop sp p f ts ns ex = RNs ns (ex ++ map fst ts).
Proof.
  intros Hs ts. induction ts as [| [s t] ts IH]; intros f ns ex Hp Hl;
    (destruct f as [| f]; [simpl in Hl; lia|]).
  - simpl. unfold finish. rewrite Hs, app_nil_r. reflexivity.
  - simpl in Hp. apply andb_prop in Hp as [Ht Hp]. simpl in Hl.
    destruct t; try discriminate; simpl.
    + rewrite Hs, IH by (auto; lia). rewrite <- app_assoc. reflexivity.
    + rewrite IH by (auto; lia). rewrite <- app_assoc. reflexivity.
Qed.

Lemma forallb_map_comp {A B} (f : B -> bool) (g : A -> B) (l : list A) :
  forallb f (map g l) = forallb (fun x => f (g x)) l.
Proof. induction l as [| x l IH]; simpl; [reflexivity|]. rewrite IH. reflexivity. Qed.

Lemma find_plain (ts : list (string * tok)) :
  forallb (fun t => plain_tok (snd t)) ts = true -> find is_ambiguous ts = None.
Proof.
  induction ts as [| [s t] ts IH]; simpl; [reflexivity|]. intros H.
  apply andb_prop in H as [Ht H]. destruct t; try discriminate; exact (IH H).
Qed.

Lemma parse_known_plain (d : nat) (p : parser) (argv : list string) :
  p_subcommands p = None -> forallb (fun s => plain_tok (classify_token p s)) argv = true ->
  parse_known (S d) p argv = RNs [] argv.
Proof.
  intros Hs Hp. rewrite parse_known_S. cbv zeta.
  assert (Hf : forallb (fun t => plain_tok (snd t)) (map (fun s => (s, classify_token p s)) argv) = true)
    by (rewrite forallb_map_comp; exact Hp).
  replace (find is_ambiguous (map (fun s => (s, classify_token p s)) argv)) with (@None (string * tok)).
  - rewrite (parse_loop_extras _ p Hs _ _ _ _ Hf) by lia.
    rewrite map_map. simpl. rewrite map_id. reflexivity.
  - symmetry. exact (find_plain _ Hf).
Qed.

(** In a parser without a commands group, strings that are positional or
    unknown options are reported together as unrecognized arguments. *)
Theorem unrecognized_arguments (p : parser) (argv : list string) :
  p_subcommands p = None -> argv <> [] ->
  forallb (fun s => plain_tok (classify_token p s)) argv = true ->
  parse_args p argv = inr (error p ("unrecognized arguments: " ++ join " " argv) []).
Proof.
  intros Hs Hn Hp. rewrite parse_args_unfold. unfold recursion_limit.
  rewrite (parse_known_plain 999 p argv Hs Hp).
  destruct argv as [| x argv]; [contradiction | reflexivity].
Qed.

Lemma unrecognized_arguments_witness :
  exists st' q, new_parser (fun _ => None) recursion_limit ReqInt 0 "prog" true true None
                  = Ok (st', q) /\
    parse_args q ["stray"; "--bogus"] =
      inr (error q ("unrecognized arguments: " ++ join " " ["stray"; "--bogus"]) []).
Proof.
  eexists. eexists. split; [vm_compute; reflexivity|].
  apply unrecognized_arguments.
  - vm_compute. reflexivity.
  - discriminate.
  - vm_compute. reflexivity.
Defined.

Lemma add_argument_nodup (p p' : parser) (r : arg_request) :
  add_argument p r = Ok p' -> String.prefix "--" (r_name r) = true ->
  NoDup (registered_options p) -> NoDup (registered_options p').
Proof.
  intros H Hp Hn. apply add_argument_shape in H as [Hs Hf].
  destruct (option_strings_long r Hp) as [Hon _].
  assert (Hall : NoDup (option_strings r ++ registered_options p)).
  { apply NoDup_app; [exact Hon | exact Hn | exact (find_none_disjoint _ _ Hf)]. }
  cbv zeta in Hs. revert Hs Hall. clear Hn Hf.
  unfold registered_options, all_actions. intros Hs Hall.
  destruct (r_required r); subst p'; destruct p as [pr e ah v gs req opt hlp subs m]; simpl in *.
  - rewrite <- app_assoc, !flat_map_app. simpl. rewrite app_nil_r.
    apply nodup_insert. rewrite !flat_map_app in Hall. exact Hall.
  - rewrite !flat_map_app. simpl. rewrite app_nil_r, <- !app_assoc.
    rewrite (app_assoc (flat_map act_options req)).
    apply nodup_insert. rewrite <- app_assoc. rewrite !flat_map_app in Hall. exact Hall.
Qed.

Lemma prefix_dash (s : string) : String.prefix "--" s = true -> String.prefix "-" s = true.
Proof. intros H. destruct (prefix_split _ _ H) as [u ->]. apply (prefix_app "-" ("-" ++ u)). Qed.

Lemma take_pos_all (vs : list string) (rest : list (string * tok)) :
  take_pos (map (fun s => (s, TPos)) vs ++ rest) =
  let '(ws, rest') := take_pos rest in (vs ++ ws, rest').
Proof.
  induction vs as [| v vs IH]; simpl; [destruct (take_pos rest); reflexivity|].
  rewrite IH. destruct (take_pos rest). reflexivity.
Qed.

Lemma classify_all_positional (p : parser) (vs : list string) :
  Forall (fun s => String.prefix "-" s = false) vs ->
  map (fun s => (s, classify_token p s)) vs = map (fun s => (s, TPos)) vs.
Proof.
  intros H. apply map_ext_in. intros s Hs. rewrite (classify_positional p s); [reflexivity|].
  rewrite Forall_forall in H. exact (H s Hs).
Qed.

Lemma find_positional (vs : list string) : find is_ambiguous (map (fun s => (s, TPos)) vs) = None.
Proof. induction vs as [| v vs IH]; [reflexivity|]. exact IH. Qed.

Lemma parse_known_store (d : nat) (p : parser) (o : string) (a : action) (vs : list string) :
  find_action p o = Some a -> String.prefix "-" o = true -> act_kind a = StoreAction ->
  p_subcommands p = None -> Forall (fun s => String.prefix "-" s = false) vs ->
  (act_nargs a = NargsNone -> forall v, vs = [v] -> parse_known (S d) p (o :: vs) = RNs [(act_dest a, VStr v)] []) /\
  (act_nargs a = OneOrMore -> vs <> [] ->
     parse_known (S d) p (o :: vs) = RNs [(act_dest a, VList (map VStr vs))] []).
Proof.
  intros Hf Hp Hk Hs Hv. rewrite parse_known_S. cbv zeta. cbn [map].
  rewrite (classify_known p o a Hf Hp), (classify_all_positional p vs Hv).
  cbn [find is_ambiguous snd]. rewrite find_positional. split.
  - intros Hn v ->. simpl. rewrite Hk, Hn. simpl. unfold finish. rewrite Hs. reflexivity.
  - intros Hn Hne. simpl. rewrite Hk, Hn.
    replace (take_pos (map (fun s => (s, TPos)) vs)) with (vs, @nil (string * tok))
      by (rewrite <- (app_nil_r (map _ vs)), take_pos_all; simpl; rewrite app_nil_r; reflexivity).
    destruct vs as [| v vs]; [contradiction|]. simpl length. simpl.
    unfold finish. rewrite Hs. reflexivity.
Qed.

Lemma base_store_action (p p' : parser) (f : field) (n : nargs) (mv : option string)
  (nm : bool) (c : option pyval) :
  _add_argument_base p f StoreAction n mv nm false c = Ok p' -> NoDup (registered_options p) ->
  NoDup (registered_options p') /\ p_subcommands p' = p_subcommands p /\
  exists a, find_action p' (name f false) = Some a /\ act_kind a = StoreAction /\
            act_nargs a = n /\ act_dest a = str_or (f_alias f) (name f false).
Proof.
  intros H Hn.
  assert (Hn' := add_argument_nodup _ _ _ H (name_long f false) Hn).
  destruct (add_argument_frame _ _ _ H) as (Hs & _).
  unfold _add_argument_base in H. cbv zeta in H.
  apply add_argument_shape in H as [Hp' _]. cbn [r_required r_kind r_nargs r_const r_dest r_name r_metavar option_strings] in Hp'.
  split; [exact Hn'|]. split; [exact Hs|].
  match type of Hp' with context [mkAction ?o ?k ?n ?c ?d ?m ?r] => exists (mkAction o k n c d m r) end.
  split; [|repeat split].
  apply find_action_unique; [exact Hn' | | left; reflexivity].
  unfold all_actions. destruct (is_required f); subst p'; simpl; rewrite ?in_app_iff; simpl; tauto.
Qed.

(** After [_add_field] registers a standard or mapping field, [--x v]
    parses to [v] under the field's alias; for a container field, [--x v1 ...
    vn] parses to the list of the [vi]. *)
Theorem option_value_round_trip (literal_eval : caster)
  (build_sub : store -> nat -> string -> res (store * parser))
  (st st' : store) (p p' : parser) (f : field) (fname : string) (vd : option validator) :
  _add_field literal_eval build_sub st p f fname = Ok (st', p', vd) ->
  NoDup (registered_options p) -> p_subcommands p = None ->
  let dest := str_or (f_alias f) (name f false) in
  (forall s, classify (f_annotation f) = KStandard \/ classify (f_annotation f) = KMapping ->
     String.prefix "-" s = false ->
     parse_args p' [name f false; s] = inl [(dest, VStr s)]) /\
  (forall vs, classify (f_annotation f) = KContainer -> vs <> [] ->
     Forall (fun s => String.prefix "-" s = false) vs ->
     parse_args p' (name f false :: vs) = inl [(dest, VList (map VStr vs))]).
Proof.
  intros H Hn Hs. cbv zeta. unfold _add_field in H. cbv zeta in H.
  assert (Hp := prefix_dash _ (name_long f false)).
  split; [intros s Hc Hv | intros vs Hc Hne Hv].
  - assert (Hb : exists mv nm c, _add_argument_base p f StoreAction NargsNone mv nm false c = Ok p').
    { destruct Hc as [Hc | Hc]; rewrite Hc in H; ok_steps; subst; eauto. }
    destruct Hb as (mv & nm & c & Hb).
    destruct (base_store_action _ _ _ _ _ _ _ Hb Hn) as (Hn' & Hs' & a & Hf & Hk & Hna & Hd).
    rewrite Hs in Hs'.
    destruct (parse_known_store 999 p' (name f false) a [s] Hf Hp Hk Hs'
                (Forall_cons _ Hv (Forall_nil _))) as [H1 _].
    rewrite parse_args_unfold. unfold recursion_limit. rewrite (H1 Hna s eq_refl), Hd. reflexivity.
  - rewrite Hc in H. ok_steps. subst.
    destruct (base_store_action _ _ _ _ _ _ _ Ha Hn) as (Hn' & Hs' & a & Hf & Hk & Hna & Hd).
    rewrite Hs in Hs'.
    destruct (parse_known_store 999 _ (name f false) a vs Hf Hp Hk Hs' Hv) as [_ H2].
    rewrite parse_args_unfold. unfold recursion_limit. rewrite (H2 Hna Hne), Hd. reflexivity.
Qed.

Lemma option_value_round_trip_witness :
  exists st' p' vd,
    _add_field (fun _ => None) (fun _ _ _ => Err AttributeError) ReqInt
      (init_parser "prog" true true None 0) (mkField (Some "x") (Some (TClass CInt)) None None None) "x"
      = Ok (st', p', vd) /\
    parse_args p' ["--x"; "5"] = inl [("x", VStr "5")].
Proof.
  destruct (_add_field (fun _ => None) (fun _ _ _ => Err AttributeError) ReqInt
      (init_parser "prog" true true None 0) (mkField (Some "x") (Some (TClass CInt)) None None None) "x")
    as [[[st' p'] vd]|e] eqn:E; [|vm_compute in E; discriminate].
  exists st', p', vd. split; [reflexivity|].
  assert (T := option_value_round_trip _ _ _ _ _ _ _ _ _ E). cbv zeta in T.
  destruct T as [T _].
  - vm_compute. repeat constructor; simpl; intuition discriminate.
  - reflexivity.
  - exact (T "5" (or_introl eq_refl) eq_refl).
Defined.


(** A parser [ArgumentParser] builds never has two actions sharing an
    option string, every field option is a long [--] option, and its help
    group holds exactly [-h/--help] (with [add_help]) and [-v/--version]
    (with a non-empty version). *)
Theorem new_parser_options (literal_eval : caster) (fuel : nat) (st : store) (m : nat)
  (prog : string) (e h : bool) (v : option string) (st' : store) (q : parser) :
  new_parser literal_eval fuel st m prog e h v = Ok (st', q) ->
  NoDup (registered_options q) /\
  (forall a o, In a (p_required q ++ p_optional q) -> In o (act_options a) ->
     String.prefix "--" o = true) /\
  p_help q = help_group h v.
Proof.
  intros H. destruct (new_parser_inv _ _ _ _ _ _ _ _ _ _ H) as ((Hn & Hl & _) & Hh & _).
  split; [exact Hn|]. split; [|exact Hh].
  intros a o Ha Ho. unfold long_options in Hl. rewrite Forall_forall in Hl. specialize (Hl a Ha).
  rewrite Forall_forall in Hl. exact (Hl o Ho).
Qed.

Lemma new_parser_options_witness :
  match new_parser (fun _ => None) recursion_limit Flags 0 "prog" true true (Some "1.0") with
  | Ok (st', q) =>
      NoDup (registered_options q) /\ p_help q = [help_action; version_action]
  | Err _ => False
  end.
Proof.
  destruct (new_parser (fun _ => None) recursion_limit Flags 0 "prog" true true (Some "1.0"))
    as [[st' q]|err] eqn:E; [|vm_compute in E; discriminate].
  destruct (new_parser_options _ _ _ _ _ _ _ _ _ _ E) as (H1 & _ & H3).
  split; [exact H1 | rewrite H3; reflexivity].
Defined.

(** A parser [ArgumentParser] builds keeps its [prog]; its sub-commands
    have distinct names and each sub-parser's [prog] is [prog name]. *)
Theorem new_parser_commands (literal_eval : caster) (fuel : nat) (st : store) (m : nat)
  (prog : string) (e h : bool) (v : option string) (st' : store) (q : parser) :
  new_parser literal_eval fuel st m prog e h v = Ok (st', q) ->
  p_prog q = prog /\
  match p_subcommands q with
  | Some subs =>
      NoDup (map fst subs) /\
      forall k sub, In (k, sub) subs -> p_prog sub = (prog ++ " " ++ k)%string
  | None => True
  end.
Proof.
  intros H. destruct (new_parser_inv _ _ _ _ _ _ _ _ _ _ H) as ((_ & _ & Hc) & _ & Hp).
  split; [exact Hp|]. unfold commands_ok in Hc.
  destruct (p_subcommands q) as [subs|]; [|exact I].
  destruct Hc as [Hd Hf]. split; [exact Hd|]. intros k sub Hin.
  rewrite Forall_forall in Hf. rewrite <- Hp. exact (Hf (k, sub) Hin).
Qed.

Lemma new_parser_commands_witness :
  match new_parser (fun _ => None) recursion_limit Nested 0 "prog" true true None with
  | Ok (st', q) =>
      match p_subcommands q with
      | Some [(k, sub)] => k = "cmd" /\ p_prog sub = "prog cmd"
      | _ => False
      end
  | Err _ => False
  end.
Proof.
  destruct (new_parser (fun _ => None) recursion_limit Nested 0 "prog" true true None)
    as [[st' q]|err] eqn:E; [|vm_compute in E; discriminate].
  destruct (new_parser_commands _ _ _ _ _ _ _ _ _ _ E) as [_ Hc].
  assert (Hs : exists sub, p_subcommands q = Some [("cmd", sub)])
    by (vm_compute in E; injection E as _ <-; eexists; reflexivity).
  destruct Hs as [sub Hs]. rewrite Hs in Hc |- *. destruct Hc as [_ Hc].
  split; [reflexivity | exact (Hc "cmd" sub (or_introl eq_refl))].
Defined.

(** ** Complement arguments, groups and boolean flags, revisited at parse time *)












Lemma base_added (p p' : parser) (f : field) (k : action_kind) (n : nargs) (mv : option string)
  (nm inv : bool) (c : option pyval) :
  _add_argument_base p f k n mv nm inv c = Ok p' ->
  exists a, act_kind a = k /\ act_const a = c /\
    act_options a = option_strings (mkRequest (name f inv) k n c (str_or (f_alias f) (name f inv))
                      (if nm then None else Some (str_or mv (upper (str_or (f_alias f) (name f inv)))))
                      (is_required f)) /\
    (if is_required f
     then p_required p' = p_required p ++ [a] /\ p_optional p' = p_optional p
     else p_optional p' = p_optional p ++ [a] /\ p_required p' = p_required p).
Proof.
  unfold _add_argument_base. cbv zeta. intros H. apply add_argument_shape in H as [H _].
  cbn [r_required r_kind r_nargs r_const r_dest r_name r_metavar] in H.
  match type of H with context [mkAction ?o ?k ?n ?c ?d ?m ?r] => exists (mkAction o k n c d m r) end.
  split; [reflexivity|]. split; [reflexivity|]. split; [reflexivity|].
  destruct (is_required f); subst p'; split; reflexivity.
Qed.

(** C4 (as amended).  A Boolean field registers exactly one argument: a
    [BooleanOptionalAction] offering [--x] and [--no-x] when it is required, a
    single [--no-x] [store_false] when it is optional with a truthy default,
    and a single [--x] [store_true] otherwise.  An Enumeration or LiteralSet
    field registers a second argument exactly when it is flag-only (one
    choice, optional) and its type is a [typing.Union] with [None], whatever
    its default; that argument, added before the primary one, is [--no-x] and
    stores [None]. *)
Theorem C4_complement_count (literal_eval : caster)
  (build_sub : store -> nat -> string -> res (store * parser))
  (st st' : store) (p p' : parser) (f : field) (fname : string) (v : option validator) :
  _add_field literal_eval build_sub st p f fname = Ok (st', p', v) ->
  let n := length (all_actions p) in
  let n' := length (all_actions p') in
  let second k := (k =? 1)%nat && negb (is_required f) && allows_none f in
  let alias := map_string underscore_to_dash (match f_alias f with Some a => a | None => "" end) in
  let no_none a b :=
    p_optional p' = p_optional p ++ [a; b] /\ p_required p' = p_required p /\
    act_options a = [("--no-" ++ alias)%string] /\ act_kind a = StoreConstAction /\
    action_value a ("--no-" ++ alias) = VNone /\
    act_options b = [("--" ++ alias)%string] /\ act_kind b = StoreConstAction in
  match classify (f_annotation f) with
  | KBoolean =>
      n' = S n /\
      exists a,
        (if is_required f
         then p_required p' = p_required p ++ [a] /\ p_optional p' = p_optional p
         else p_optional p' = p_optional p ++ [a] /\ p_required p' = p_required p) /\
        (if is_required f
         then act_kind a = BooleanOptionalAction /\
              act_options a = [("--" ++ alias)%string; ("--no-" ++ alias)%string]
         else if default_truthy (get_default f)
         then act_kind a = StoreFalseAction /\ act_options a = [("--no-" ++ alias)%string]
         else act_kind a = StoreTrueAction /\ act_options a = [("--" ++ alias)%string])
  | KLiteral =>
      n' = n + (if second (length (literal_choices (f_annotation f))) then 2 else 1) /\
      (second (length (literal_choices (f_annotation f))) = true -> exists a b, no_none a b)
  | KEnum => exists e rest,
      _iter_candidate_annotations (f_annotation f) = TClass (CEnum e) :: rest /\
      n' = n + (if second (length (e_members e)) then 2 else 1) /\
      (second (length (e_members e)) = true -> exists a b, no_none a b)
  | _ => True
  end.
Proof.
  unfold _add_field. intros H. cbv zeta in *.
  destruct (classify (f_annotation f)); try exact I.
  - (* Literal *)
    ok_steps. subst. split.
    + apply add_argument_base_length in Ha0 as Hl0.
      destruct (length (literal_choices (f_annotation f)) =? 1)%nat, (is_required f),
        (allows_none f); simpl in *;
        first [ apply add_argument_base_length in Ha; lia | injection Ha as <-; lia ].
    + intros Hsec. apply andb_prop in Hsec as [Hsec Han]. apply andb_prop in Hsec as [H1 Hr].
      rewrite H1, Hr, Han in *. apply negb_true_iff in Hr. simpl in Ha, Ha0.
      destruct (base_added _ _ _ _ _ _ _ _ _ Ha) as (x & Hxk & Hxc & Hxo & Hxg).
      destruct (base_added _ _ _ _ _ _ _ _ _ Ha0) as (y & Hyk & _ & Hyo & Hyg).
      rewrite Hr in Hxg, Hyg. destruct Hxg as [Hxg Hxr]. destruct Hyg as [Hyg Hyr].
      exists x, y. split; [rewrite Hyg, Hxg, <- app_assoc; reflexivity|].
      split; [congruence|]. split; [exact Hxo|]. split; [exact Hxk|].
      split; [unfold action_value; rewrite Hxk, Hxc; reflexivity|].
      split; [exact Hyo | exact Hyk].
  - (* Boolean *)
    ok_steps. subst. split; [apply add_argument_base_length in Ha; exact Ha|].
    destruct (base_added _ _ _ _ _ _ _ _ _ Ha) as (x & Hxk & _ & Hxo & Hxg).
    exists x. split; [exact Hxg|].
    destruct (is_required f) eqn:Hr; simpl in Hxk, Hxo.
    + split; [exact Hxk|]. rewrite Hxo. apply boolean_option_strings; reflexivity.
    + destruct (default_truthy (get_default f)); simpl in Hxk, Hxo; split; assumption.
  - (* Enum *)
    destruct (_iter_candidate_annotations (f_annotation f)) as [| t rest] eqn:Ec;
      [discriminate|].
    destruct t as [| c | c args | ls | syn ts]; try discriminate.
    destruct c; try discriminate.
    exists e, rest. split; [reflexivity|].
    ok_steps. subst. split.
    + apply add_argument_base_length in Ha0 as Hl0.
      destruct (length (e_members e) =? 1)%nat, (is_required f), (allows_none f); simpl in *;
        first [ apply add_argument_base_length in Ha; lia | injection Ha as <-; lia ].
    + intros Hsec. apply andb_prop in Hsec as [Hsec Han]. apply andb_prop in Hsec as [H1 Hr].
      rewrite H1, Hr, Han in *. apply negb_true_iff in Hr. simpl in Ha, Ha0.
      destruct (base_added _ _ _ _ _ _ _ _ _ Ha) as (x & Hxk & Hxc & Hxo & Hxg).
      destruct (base_added _ _ _ _ _ _ _ _ _ Ha0) as (y & Hyk & _ & Hyo & Hyg).
      rewrite Hr in Hxg, Hyg. destruct Hxg as [Hxg Hxr]. destruct Hyg as [Hyg Hyr].
      exists x, y. split; [rewrite Hyg, Hxg, <- app_assoc; reflexivity|].
      split; [congruence|]. split; [exact Hxo|]. split; [exact Hxk|].
      split; [unfold action_value; rewrite Hxk, Hxc; reflexivity|].
      split; [exact Hyo | exact Hyk].
Qed.

Lemma C4_complement_count_witness :
  let f := set_alias_default "x" (fld (opt (TClass (CEnum Single))) (Some (VMember "Single" "A"))) in
  let p := init_parser "prog" true true None 0 in
  exists st' p' v,
    _add_field (fun _ => None) (fun _ _ _ => Err RecursionLimit) [] p f "x" = Ok (st', p', v) /\
    length (all_actions p') = S (S (length (all_actions p))) /\
    exists a, act_options a = ["--no-x"] /\ action_value a "--no-x" = VNone.
Proof.
  intros f p.
  destruct (_add_field (fun _ => None) (fun _ _ _ => Err RecursionLimit) [] p f "x")
    as [[[st' p'] v]|e] eqn:E; [|vm_compute in E; discriminate].
  exists st', p', v. split; [reflexivity|].
  pose proof (C4_complement_count (fun _ => None) (fun _ _ _ => Err RecursionLimit)
                [] st' p p' f "x" v E) as H.
  assert (Hc : classify (f_annotation f) = KEnum) by (vm_compute; reflexivity).
  cbv zeta in H. rewrite Hc in H. destruct H as (e & rest & Hi & H & Hsec).
  vm_compute in Hi. injection Hi as <- _.
  split; [rewrite H; vm_compute; reflexivity|].
  destruct (Hsec ltac:(vm_compute; reflexivity)) as (a & b & _ & _ & Ho & _ & Hv & _).
  exists a. split; [exact Ho | exact Hv].
Defined.




